(** * Tree rewriting and category extraction of [ulf2english/util.py]

    A shallow embedding of the s-expression utilities of
    [src/ulf2english/util.py] ([atom], [cons], [append], [subst],
    [substall], [rec_replace], [rec_remove], [split_by_cond],
    [extract_category], [rec_find], [rec_find_if]) together with the
    properties stated about them.

    Python values are modelled by [tree]: an atom is a piece of text, an
    integer or [None]; a Python [list] is a [Compound].  Python's [==] on
    such values is structural equality, modelled by [tree_eqb].  A
    function that can raise returns a [res]; the recursion of
    [extract_category], which is not structural, is bounded by fuel and
    returns an [option].  The interpreter's limit on the depth of the call
    stack is not modelled. *)

From Stdlib Require Import List Bool Arith ZArith Lia String Ascii Permutation.
Import ListNotations.

Local Open Scope list_scope.
Set Warnings "-register-all".

(** ** Data model *)

Inductive atomv : Type :=
| AStr (s : string)
| AInt (z : Z)
| ANone.

Inductive tree : Type :=
| Atom (a : atomv)
| Compound (l : list tree).

(** The exception a Python [for] loop raises on a value that is not
    iterable. *)
Inductive exn : Type :=
| TypeError.

Inductive res (A : Type) : Type :=
| Ok (a : A)
| Raise (e : exn).

Arguments Ok {A} a.
Arguments Raise {A} e.

Definition bind {A B : Type} (m : res A) (k : A -> res B) : res B :=
  match m with
  | Ok a => k a
  | Raise e => Raise e
  end.

Notation "x <- m ;; k" := (bind m (fun x => k))
  (at level 61, m at next level, right associativity).

(** Induction over trees that also gives the hypothesis for every child of
    a compound. *)
Section TreeInd.
Variable P : tree -> Prop.
Hypothesis HAtom : forall a, P (Atom a).
Hypothesis HCompound : forall l, Forall P l -> P (Compound l).

Fixpoint tree_ind' (t : tree) : P t :=
  match t with
  | Atom a => HAtom a
  | Compound l =>
      HCompound l
        ((fix children (l : list tree) : Forall P l :=
            match l with
            | [] => Forall_nil P
            | c :: l' => Forall_cons c (tree_ind' c) (children l')
            end) l)
  end.
End TreeInd.

(** ** Structural equality: Python's [==] *)

Definition atomv_eqb (a b : atomv) : bool :=
  match a, b with
  | AStr s, AStr s' => String.eqb s s'
  | AInt z, AInt z' => Z.eqb z z'
  | ANone, ANone => true
  | _, _ => false
  end.

Fixpoint tree_eqb (x y : tree) {struct x} : bool :=
  match x, y with
  | Atom a, Atom b => atomv_eqb a b
  | Compound l, Compound l' =>
      (fix list_eqb (l l' : list tree) {struct l} : bool :=
         match l, l' with
         | [], [] => true
         | c :: k, c' :: k' => tree_eqb c c' && list_eqb k k'
         | _, _ => false
         end) l l'
  | _, _ => false
  end.

(** ** Simple predicates *)

(** [bool(x)]: the truth value Python gives a value. *)
Definition truthy (x : tree) : bool :=
  match x with
  | Atom (AStr s) => negb (String.eqb s EmptyString)
  | Atom (AInt z) => negb (Z.eqb z 0)
  | Atom ANone => false
  | Compound l => match l with [] => false | _ :: _ => true end
  end.

(** [listp(lst)]: [isinstance(lst, list)]. *)
Definition listp (lst : tree) : bool :=
  match lst with
  | Compound _ => true
  | Atom _ => false
  end.

(** [atom(lst)]: [not lst or not listp(lst)]. *)
Definition atom (lst : tree) : bool :=
  negb (truthy lst) || negb (listp lst).

(** [cons(lst1, lst2)] on a list [lst2]: [[lst1] + lst2].  The callers in
    this file only pass lists, so the set and scalar branches are excluded
    by the type. *)
Definition cons {A : Type} (lst1 : A) (lst2 : list A) : list A :=
  [lst1] ++ lst2.

(** [append(lst)]: [[x for l in lst for x in l]]. *)
Fixpoint append {A : Type} (lst : list (list A)) : list A :=
  match lst with
  | [] => []
  | l :: rest => l ++ append rest
  end.

(** ** Substitution *)

(** [subst_rec(a, b, x)], the local function of [subst]. *)
Fixpoint subst_rec (a b x : tree) {struct x} : tree :=
  if tree_eqb x b then a
  else if atom x then x
  else match x with
       | Compound l => Compound (map (subst_rec a b) l)
       | Atom _ => x
       end.

Definition subst (a b lst : tree) : tree := subst_rec a b lst.

(** [substall(lst, replist)]: the loop threads [lst] through the pairs
    [(b, a)] of [replist]. *)
Fixpoint substall (lst : tree) (replist : list (tree * tree)) : tree :=
  match replist with
  | [] => lst
  | (b, a) :: rest => substall (subst a b lst) rest
  end.

(** The chain of substitutions as the specification writes it:
    [subst(rn, tn, ... subst(r1, t1, t) ...)], the last pair outermost. *)
Fixpoint subst_chain (t : tree) (rev_pairs : list (tree * tree)) : tree :=
  match rev_pairs with
  | [] => t
  | (tn, rn) :: earlier => subst rn tn (subst_chain t earlier)
  end.

(** ** Replacement and removal *)

(** What a [for e in lst] loop iterates over: the items of a list, the
    one-character strings of a string; a number or [None] is not iterable. *)
Definition char_atom (c : ascii) : tree :=
  Atom (AStr (String c EmptyString)).

Definition iter (lst : tree) : res (list tree) :=
  match lst with
  | Compound l => Ok l
  | Atom (AStr s) => Ok (map char_atom (list_ascii_of_string s))
  | Atom _ => Raise TypeError
  end.

Section Loops.
(** The recursive call of the enclosing function, made on the items [e]
    with [type(e) == list]. *)
Variable recur : tree -> res tree.

(** The loop of [rec_replace]; [new_lst] is the list built so far. *)
Fixpoint replace_loop (old new : tree) (es new_lst : list tree)
  {struct es} : res (list tree) :=
  match es with
  | [] => Ok new_lst
  | e :: es' =>
      if tree_eqb e old then replace_loop old new es' (new_lst ++ [new])
      else if listp e then
        r <- recur e ;; replace_loop old new es' (new_lst ++ [r])
      else replace_loop old new es' (new_lst ++ [e])
  end.

(** The loop of [rec_remove]. *)
Fixpoint remove_loop (target : tree) (es new_lst : list tree)
  {struct es} : res (list tree) :=
  match es with
  | [] => Ok new_lst
  | e :: es' =>
      if tree_eqb e target then remove_loop target es' new_lst
      else if listp e then
        r <- recur e ;; remove_loop target es' (new_lst ++ [r])
      else remove_loop target es' (new_lst ++ [e])
  end.
End Loops.

(** The items of a string are strings, never lists, so the loop over them
    makes no recursive call. *)
Definition no_call (e : tree) : res tree := Ok e.

Fixpoint rec_replace (old new lst : tree) {struct lst} : res tree :=
  if tree_eqb lst old then Ok new
  else
    match lst with
    | Compound l =>
        new_lst <- replace_loop (rec_replace old new) old new l [] ;;
        Ok (Compound new_lst)
    | Atom _ =>
        es <- iter lst ;;
        new_lst <- replace_loop no_call old new es [] ;;
        Ok (Compound new_lst)
    end.

Fixpoint rec_remove (target lst : tree) {struct lst} : res tree :=
  match lst with
  | Compound l =>
      new_lst <- remove_loop (rec_remove target) target l [] ;;
      Ok (Compound new_lst)
  | Atom _ =>
      es <- iter lst ;;
      new_lst <- remove_loop no_call target es [] ;;
      Ok (Compound new_lst)
  end.

(** ** Category extraction *)

(** [split_by_cond(lst, cndfn)]: [(filtered, matching)]. *)
Definition split_by_cond (lst : list tree) (cndfn : tree -> bool)
  : list tree * list tree :=
  (filter (fun x => negb (cndfn x)) lst, filter cndfn lst).

(** A list comprehension over a call that may run out of fuel. *)
Fixpoint mapM {A B : Type} (f : A -> option B) (l : list A)
  : option (list B) :=
  match l with
  | [] => Some []
  | x :: l' =>
      match f x, mapM f l' with
      | Some y, Some ys => Some (y :: ys)
      | _, _ => None
      end
  end.

(** Nesting depth of a tree. *)
Fixpoint depth (t : tree) : nat :=
  match t with
  | Atom _ => 0
  | Compound l => S (fold_right Nat.max 0 (map depth l))
  end.

Section ExtractCategory.
Variable catfn : tree -> bool.
Variable ignfn : option (tree -> bool).

(** [ignfn is not None and ignfn(lst)]. *)
Definition ignored (lst : tree) : bool :=
  match ignfn with
  | Some g => g lst
  | None => false
  end.

(** The two lists [rec] binds at a compound [lst] with items [items]:
    the items it continues into, and the items it extracts. *)
Definition no_sent_ops_of (lst : tree) (items : list tree) : list tree :=
  fst (if ignored lst then (items, [])
       else split_by_cond items catfn).

Definition sent_ops_of (lst : tree) (items : list tree) : list tree :=
  snd (if ignored lst then (items, [])
       else split_by_cond items catfn).

(** The local function [rec] of [extract_category].  It recurses on the
    items that [split_by_cond] keeps, which is not a structural descent,
    so the recursion is bounded by [fuel], the number of nested calls
    still allowed; [None] means the bound was reached. *)
Fixpoint rec (fuel : nat) (lst : tree) {struct fuel}
  : option (tree * list tree) :=
  match fuel with
  | O => None
  | S fuel' =>
      if atom lst then Some (lst, [])
      else
        match lst with
        | Atom _ => Some (lst, [])
        | Compound items =>
            let '(no_sent_ops, sent_ops) :=
              if ignored lst then (items, [])
              else split_by_cond items catfn in
            match mapM (rec fuel') no_sent_ops with
            | Some recursed =>
                let lst_new := map fst recursed in
                let categories :=
                  append (cons sent_ops (map snd recursed)) in
                Some (Compound lst_new, categories)
            | None => None
            end
        end
  end.
End ExtractCategory.

(** [extract_category(lst, catfn, ignfn)].  The call [rec(lst)] nests at
    most [depth lst + 1] calls, which is the fuel given here. *)
Definition extract_category (lst : tree) (catfn : tree -> bool)
  (ignfn : option (tree -> bool)) : option (tree * list tree) :=
  rec catfn ignfn (S (depth lst)) lst.

(** [rec_find(lst, x, test)]; the default [test] is [tree_eqb]. *)
Definition rec_find (lst x : tree) (test : tree -> tree -> bool)
  : option (list tree) :=
  match extract_category lst (fun y => test x y) None with
  | Some (_, categories) => Some categories
  | None => None
  end.

(** [rec_find_if(lst, cndfn)]. *)
Definition rec_find_if (lst : tree) (cndfn : tree -> bool)
  : option (list tree) :=
  match extract_category lst cndfn None with
  | Some (_, categories) => Some categories
  | None => None
  end.

(** ** Concrete trees used in examples *)

Definition sym (s : string) : tree := Atom (AStr s).

Definition starts_with_ignore (t : tree) : bool :=
  match t with
  | Compound (c :: _) => tree_eqb c (sym "ignore")
  | _ => false
  end.

Definition ignore_scenario : tree :=
  Compound [sym "sent";
            Compound [sym "ignore"; Compound [sym "a"; sym "b"]];
            sym "c"].

Definition matches_b_or_its_list (t : tree) : bool :=
  tree_eqb t (sym "b") || tree_eqb t (Compound [sym "b"]).

(** ** Removal as the specification describes it *)

(** [removed v l l']: [l'] is [l] with every item equal to [v] deleted,
    and the same done inside every remaining compound item. *)
Inductive removed (v : tree) : list tree -> list tree -> Prop :=
| removed_nil : removed v [] []
| removed_drop (l l' : list tree) :
    removed v l l' -> removed v (v :: l) l'
| removed_atom (a : atomv) (l l' : list tree) :
    Atom a <> v -> removed v l l' ->
    removed v (Atom a :: l) (Atom a :: l')
| removed_compound (k k' l l' : list tree) :
    Compound k <> v -> removed v k k' -> removed v l l' ->
    removed v (Compound k :: l) (Compound k' :: l').

(** ** Nodes and positions of a tree *)

(** A node of a tree is named by its position: the indices of the items
    to follow from the root. *)
Abbreviation path := (list nat).

Fixpoint subtree_at (t : tree) (pi : path) : option tree :=
  match pi with
  | [] => Some t
  | i :: pi' =>
      match t with
      | Compound l =>
          match nth_error l i with
          | Some c => subtree_at c pi'
          | None => None
          end
      | Atom _ => None
      end
  end.

(** The positions below the items of a list, the first item having
    index [i]; [ps] holds the positions of each item. *)
Fixpoint items_paths (ps : list (list path)) (i : nat) : list path :=
  match ps with
  | [] => []
  | q :: ps' => map (List.cons i) q ++ items_paths ps' (S i)
  end.

(** All positions of a tree, parents before items, items left to right. *)
Fixpoint paths (t : tree) : list path :=
  match t with
  | Atom _ => [[]]
  | Compound l => [] :: items_paths (map paths l) 0
  end.

(** All nodes of a tree, in the same order. *)
Fixpoint nodes (t : tree) : list tree :=
  t :: match t with
       | Atom _ => []
       | Compound l => flat_map nodes l
       end.

(** The nodes met on the way from the root to a position: the root left
    out, the node at the position last. *)
Fixpoint along (t : tree) (pi : path) : list tree :=
  match pi with
  | [] => []
  | i :: pi' =>
      match t with
      | Compound l =>
          match nth_error l i with
          | Some c => c :: along c pi'
          | None => []
          end
      | Atom _ => []
      end
  end.

(** A position is an outermost match when it is not the root, its node
    satisfies [p] and no node above it, the root apart, does.  The
    argument is the list [along t pi]. *)
Fixpoint outermostb (p : tree -> bool) (ns : list tree) : bool :=
  match ns with
  | [] => false
  | n :: ns' =>
      match ns' with
      | [] => p n
      | _ :: _ => negb (p n) && outermostb p ns'
      end
  end.

(** A position is kept when neither its node nor a node above it, the
    root apart, satisfies [p]. *)
Definition keptb (p : tree -> bool) (ns : list tree) : bool :=
  forallb (fun n => negb (p n)) ns.

Definition outermost_nodes (p : tree -> bool) (t : tree)
  : list (option tree) :=
  map (subtree_at t) (filter (fun pi => outermostb p (along t pi)) (paths t)).

Definition kept_nodes (p : tree -> bool) (t : tree) : list (option tree) :=
  map (subtree_at t) (filter (fun pi => keptb p (along t pi)) (paths t)).

(** [n'] is what the extraction makes of the node [n]. *)
Definition rewritten (p : tree -> bool) (n : option tree) (n' : tree)
  : Prop :=
  exists m ms, n = Some m /\ extract_category m p None = Some (n', ms).

(** ** The partition property as the specification states it *)

(** Every node that satisfies [p] is an entry of the matches. *)
Definition every_match_listed (t : tree) (p : tree -> bool) : Prop :=
  forall t' ms, extract_category t p None = Some (t', ms) ->
  forall pi n, subtree_at t pi = Some n -> p n = true -> In n ms.

(** Every node that does not satisfy [p] is, in its rewritten form, a node
    of the rewritten tree. *)
Definition rest_is_retained (t : tree) (p : tree -> bool) : Prop :=
  forall t' ms, extract_category t p None = Some (t', ms) ->
  forall pi n, subtree_at t pi = Some n -> p n = false ->
  exists n', rewritten p (Some n) n' /\ In n' (nodes t').

Definition differs_from_c (t : tree) : bool :=
  negb (tree_eqb t (sym "c")).

Definition nested_match : tree :=
  Compound [Compound [sym "b"; sym "c"]].

(** The partition the extraction makes of the nodes of a tree [c]: the
    matches are the nodes at the outermost matching positions, one entry
    for each position, and the nodes of the rewritten tree are the
    rewritten nodes at the kept positions, one for one and in order. *)
Definition partitioned (p : tree -> bool) (c : tree) : Prop :=
  exists t' ms,
    extract_category c p None = Some (t', ms)
    /\ Permutation (map Some ms) (outermost_nodes p c)
    /\ Forall2 (rewritten p) (kept_nodes p c) (nodes t').

(** ** The remaining list utilities *)

(** The nodes of a tree below its root. *)
Definition proper_nodes (t : tree) : list tree :=
  match t with
  | Atom _ => []
  | Compound l => flat_map nodes l
  end.

(** [flatten(lst)]. *)
Fixpoint flatten (lst : tree) : list tree :=
  if negb (listp lst) then [lst]
  else
    match lst with
    | Compound l => append (map flatten l)
    | Atom _ => [lst]
    end.

(** [x in lst] on a list: some item is [==] to [x]. *)
Definition mem (x : tree) (lst : list tree) : bool :=
  existsb (fun y => tree_eqb y x) lst.

(** The loop of [remove_duplicates] in the branch [order=True]; [visited]
    and [lst1] are the two lists it appends to. *)
Fixpoint dedup_loop (lst visited lst1 : list tree) : list tree :=
  match lst with
  | [] => lst1
  | l :: rest =>
      if negb (mem l visited) then
        dedup_loop rest (visited ++ [l]) (lst1 ++ [l])
      else dedup_loop rest visited lst1
  end.

(** [remove_duplicates(lst, order=True)].  The other branch goes through
    a Python [set], whose iteration order the language leaves open; it is
    not modelled. *)
Definition remove_duplicates (lst : list tree) : list tree :=
  dedup_loop lst [] [].


(** [get_keyword_contents(lst, keys)]: the pairs are those of
    [zip(lst, lst[1:] + [None])]. *)
Definition get_keyword_contents (lst keys : list tree) : list tree :=
  map snd
    (filter (fun '(e1, e2) => mem e1 keys && truthy e2)
       (combine lst (tl lst ++ [Atom ANone]))).

(** ** Tests on symbols *)

Definition double_quote : ascii := "034"%char.
Definition vertical_bar : ascii := "|"%char.

(** [s.count(c)] for a one-character [c]. *)
Fixpoint count_char (c : ascii) (s : string) : nat :=
  match s with
  | EmptyString => 0
  | String d s' => (if Ascii.eqb d c then 1 else 0) + count_char c s'
  end.

(** [isquote(s)]; [s[0]] and [s[-1]] are the first and the last
    character. *)
Definition isquote (s : tree) : bool :=
  match s with
  | Atom (AStr str) =>
      (2 <=? String.length str)
      && match String.get 0 str with
         | Some c => Ascii.eqb c double_quote
         | None => false
         end
      && match String.get (String.length str - 1) str with
         | Some c => Ascii.eqb c double_quote
         | None => false
         end
  | _ => false
  end.

(** [escaped_symbol_p(s)]. *)
Definition escaped_symbol_p (s : tree) : bool :=
  match s with
  | Atom (AStr str) =>
      (2 <=? String.length str) && (count_char vertical_bar str =? 2)
  | _ => false
  end.

(** [symbolp(s)]. *)
Definition symbolp (s : tree) : bool :=
  match s with
  | Atom (AStr _) => true
  | _ => false
  end.

(** [s * k] on a string: [k] copies of [s], none when [k] is not
    positive. *)
Fixpoint string_times (s : string) (k : nat) : string :=
  match k with
  | O => EmptyString
  | S k' => String.append s (string_times s k')
  end.

(** [indent(n)]: two spaces, [n - 1] times. *)
Definition indent (n : Z) : string :=
  string_times "  " (Z.to_nat (n - 1)).

(** * Properties *)

(** ** The scenarios of the specification, evaluated *)

Example extract_equals_d :
  extract_category
    (Compound [sym "a"; Compound [sym "b"; sym "c"]; sym "d"])
    (tree_eqb (sym "d")) None
  = Some (Compound [sym "a"; Compound [sym "b"; sym "c"]], [sym "d"]).
Proof. reflexivity. Qed.

Example rec_find_both_x :
  rec_find (Compound [Compound [sym "x"; sym "y"];
                      Compound [sym "x"; sym "z"]])
    (sym "x") tree_eqb
  = Some [sym "x"; sym "x"].
Proof. reflexivity. Qed.

Example rec_remove_keeps_order :
  rec_remove (sym "target")
    (Compound [sym "a"; sym "b"; sym "target"; sym "c"])
  = Ok (Compound [sym "a"; sym "b"; sym "c"]).
Proof. reflexivity. Qed.

Example rec_replace_text_atom :
  rec_replace (sym "b") (sym "x") (sym "abc")
  = Ok (Compound [sym "a"; sym "x"; sym "c"]).
Proof. reflexivity. Qed.

Example substall_chained :
  substall (Compound [sym "a"; sym "b"])
    [(sym "a", sym "b"); (sym "b", sym "c")]
  = Compound [sym "c"; sym "c"].
Proof. reflexivity. Qed.

(** ** Equality and the atom test *)

Lemma atomv_eqb_eq (a b : atomv) : atomv_eqb a b = true <-> a = b.
Proof.
  destruct a, b; simpl; split; intro H; try congruence; try reflexivity.
  - apply String.eqb_eq in H. congruence.
  - apply String.eqb_eq. congruence.
  - apply Z.eqb_eq in H. congruence.
  - apply Z.eqb_eq. congruence.
Qed.

Lemma tree_eqb_eq (x : tree) : forall y, tree_eqb x y = true <-> x = y.
Proof.
  induction x as [a | l IH] using tree_ind'; intros [b | l']; simpl;
    try (split; intro H; discriminate H).
  - rewrite atomv_eqb_eq. split; congruence.
  - revert l'. induction IH as [| c k Hc _ IHk]; intros [| c' k'];
      try (split; intro H; discriminate H).
    + split; reflexivity.
    + rewrite andb_true_iff, Hc, IHk. split.
      * intros [-> H]. congruence.
      * intro H. injection H as -> ->. split; reflexivity.
Qed.

Lemma tree_eqb_refl (x : tree) : tree_eqb x x = true.
Proof. apply tree_eqb_eq. reflexivity. Qed.

Lemma tree_eqb_neq (x y : tree) : tree_eqb x y = false <-> x <> y.
Proof.
  rewrite <- not_true_iff_false, tree_eqb_eq. reflexivity.
Qed.

(** [atom] holds of everything except a compound with at least one item. *)
Lemma atom_spec (t : tree) :
  atom t = match t with
           | Compound (_ :: _) => false
           | _ => true
           end.
Proof.
  destruct t as [[s | z | ] | [| c l]]; unfold atom; simpl;
    try reflexivity; apply orb_true_r.
Qed.

(** ** Substitution *)

Lemma subst_rec_unfold (a b x : tree) :
  subst_rec a b x =
  if tree_eqb x b then a
  else if atom x then x
  else match x with
       | Compound l => Compound (map (subst_rec a b) l)
       | Atom _ => x
       end.
Proof. destruct x; reflexivity. Qed.

(** C5. Whole-tree precedence: substituting [R] for [T] in [T] itself
    gives [R], whatever [T] is, because the equality test on the whole
    tree comes before the atom test and before the descent into items. *)
Theorem subst_whole_tree (R T : tree) : subst R T T = R.
Proof.
  unfold subst. rewrite subst_rec_unfold, tree_eqb_refl. reflexivity.
Qed.

(** C8. Substituting a value for itself leaves every tree unchanged. *)
Theorem subst_same_identity (x t : tree) : subst x x t = t.
Proof.
  unfold subst.
  induction t as [a | l IH] using tree_ind'; rewrite subst_rec_unfold.
  - destruct (tree_eqb (Atom a) x) eqn:E.
    + apply tree_eqb_eq in E. congruence.
    + rewrite atom_spec. reflexivity.
  - destruct (tree_eqb (Compound l) x) eqn:E.
    + apply tree_eqb_eq in E. congruence.
    + destruct (atom (Compound l)); [reflexivity |].
      f_equal. clear E.
      induction IH as [| c k Hc _ IHk]; simpl; [reflexivity |].
      rewrite Hc, IHk. reflexivity.
Qed.

Lemma substall_app (t : tree) (ps qs : list (tree * tree)) :
  substall t (ps ++ qs) = substall (substall t ps) qs.
Proof.
  revert t. induction ps as [| [b a] ps IH]; intro t; simpl.
  - reflexivity.
  - apply IH.
Qed.

(** C7. [substall] composes left to right: with the pairs
    [(t1, r1), ..., (tn, rn)] it computes
    [subst(rn, tn, ... subst(r1, t1, t) ...)]; equivalently, appending a
    pair applies one more full [subst] pass to the result of the earlier
    pairs. *)
Theorem substall_left_to_right (t : tree) (pairs : list (tree * tree)) :
  substall t pairs = subst_chain t (rev pairs)
  /\ (forall tn rn,
        substall t (pairs ++ [(tn, rn)]) = subst rn tn (substall t pairs)).
Proof.
  split.
  - revert t. induction pairs as [| [b a] ps IH] using rev_ind; intro t.
    + reflexivity.
    + rewrite substall_app, rev_app_distr. simpl. rewrite IH. reflexivity.
  - intros tn rn. rewrite substall_app. reflexivity.
Qed.

(** ** Termination of the extraction *)

Lemma mapM_ext_in {A B : Type} (f g : A -> option B) (l : list A) :
  (forall x, In x l -> f x = g x) -> mapM f l = mapM g l.
Proof.
  induction l as [| x l IH]; intro H; simpl; [reflexivity |].
  rewrite (H x (or_introl eq_refl)), IH; [reflexivity |].
  intros y Hy. apply H. right. exact Hy.
Qed.

Lemma mapM_total {A B : Type} (f : A -> option B) (l : list A) :
  (forall x, In x l -> exists y, f x = Some y) ->
  exists ys, mapM f l = Some ys.
Proof.
  induction l as [| x l IH]; intro H; simpl.
  - exists []. reflexivity.
  - destruct (H x (or_introl eq_refl)) as [y ->].
    destruct IH as [ys ->].
    + intros z Hz. apply H. right. exact Hz.
    + exists (y :: ys). reflexivity.
Qed.

Lemma depth_child (c : tree) (l : list tree) :
  In c l -> depth c < depth (Compound l).
Proof.
  simpl. induction l as [| d l IH]; simpl; [intros [] |].
  intros [-> | H].
  - lia.
  - specialize (IH H). lia.
Qed.

Lemma split_by_cond_incl (l : list tree) (p : tree -> bool) (c : tree) :
  In c (fst (split_by_cond l p)) -> In c l.
Proof. simpl. intro H. apply filter_In in H. apply H. Qed.

Section ExtractFuel.
Variable catfn : tree -> bool.
Variable ignfn : option (tree -> bool).

Lemma no_sent_ops_incl (lst : tree) (items : list tree) (c : tree) :
  In c (no_sent_ops_of catfn ignfn lst items) -> In c items.
Proof.
  unfold no_sent_ops_of. destruct (ignored ignfn lst).
  - trivial.
  - apply split_by_cond_incl.
Qed.

Lemma rec_unfold (fuel : nat) (lst : tree) :
  rec catfn ignfn (S fuel) lst =
  if atom lst then Some (lst, [])
  else
    match lst with
    | Atom _ => Some (lst, [])
    | Compound items =>
        match mapM (rec catfn ignfn fuel)
                (no_sent_ops_of catfn ignfn lst items) with
        | Some recursed =>
            Some (Compound (map fst recursed),
                  sent_ops_of catfn ignfn lst items
                  ++ append (map snd recursed))
        | None => None
        end
    end.
Proof.
  simpl. destruct (atom lst); [reflexivity |].
  destruct lst as [a | items]; [reflexivity |].
  unfold no_sent_ops_of, sent_ops_of.
  destruct (if ignored ignfn (Compound items) then (items, [])
            else split_by_cond items catfn) as [kept matched].
  reflexivity.
Qed.

(** Any two amounts of fuel above the depth of the tree give the same
    result. *)
Lemma rec_fuel_indep (t : tree) :
  forall f1 f2, depth t < f1 -> depth t < f2 ->
                rec catfn ignfn f1 t = rec catfn ignfn f2 t.
Proof.
  induction t as [a | l IH] using tree_ind'; intros f1 f2 H1 H2;
    destruct f1 as [| f1]; try lia; destruct f2 as [| f2]; try lia;
    rewrite !rec_unfold.
  - rewrite atom_spec. reflexivity.
  - destruct (atom (Compound l)); [reflexivity |].
    rewrite (mapM_ext_in (rec catfn ignfn f1) (rec catfn ignfn f2));
      [reflexivity |].
    intros c Hc. apply no_sent_ops_incl in Hc.
    pose proof (depth_child c l Hc) as Hd.
    rewrite Forall_forall in IH. apply IH; [exact Hc | lia | lia].
Qed.

(** With more fuel than the depth of the tree, [rec] returns. *)
Lemma rec_fuel_enough (t : tree) :
  forall fuel, depth t < fuel -> exists r, rec catfn ignfn fuel t = Some r.
Proof.
  induction t as [a | l IH] using tree_ind'; intros fuel H;
    destruct fuel as [| fuel]; try lia; rewrite rec_unfold.
  - rewrite atom_spec. eexists. reflexivity.
  - destruct (atom (Compound l)); [eexists; reflexivity |].
    destruct (mapM_total (rec catfn ignfn fuel)
                (no_sent_ops_of catfn ignfn (Compound l) l)) as [ys ->].
    + intros c Hc. apply no_sent_ops_incl in Hc.
      pose proof (depth_child c l Hc) as Hd.
      rewrite Forall_forall in IH. apply IH; [exact Hc | lia].
    + eexists. reflexivity.
Qed.

(** The equation of [extract_category] on a compound, with the recursive
    calls themselves calls of [extract_category]. *)
Lemma extract_category_unfold (lst : tree) :
  extract_category lst catfn ignfn =
  if atom lst then Some (lst, [])
  else
    match lst with
    | Atom _ => Some (lst, [])
    | Compound items =>
        match mapM (fun x => extract_category x catfn ignfn)
                (no_sent_ops_of catfn ignfn lst items) with
        | Some recursed =>
            Some (Compound (map fst recursed),
                  sent_ops_of catfn ignfn lst items
                  ++ append (map snd recursed))
        | None => None
        end
    end.
Proof.
  unfold extract_category at 1. rewrite rec_unfold.
  destruct (atom lst); [reflexivity |].
  destruct lst as [a | items]; [reflexivity |].
  rewrite (mapM_ext_in (rec catfn ignfn (depth (Compound items)))
             (fun x => extract_category x catfn ignfn)); [reflexivity |].
  intros c Hc. apply no_sent_ops_incl in Hc.
  pose proof (depth_child c items Hc) as Hd.
  unfold extract_category. apply rec_fuel_indep; lia.
Qed.
End ExtractFuel.

Lemma extract_category_atom (t : tree) (catfn : tree -> bool)
  (ignfn : option (tree -> bool)) :
  atom t = true -> extract_category t catfn ignfn = Some (t, []).
Proof.
  intro H. rewrite extract_category_unfold, H. reflexivity.
Qed.

Lemma append_concat {A : Type} (lst : list (list A)) :
  append lst = List.concat lst.
Proof.
  induction lst as [| l rest IH]; simpl; [reflexivity |].
  rewrite IH. reflexivity.
Qed.

Lemma mapM_Forall2 {A B : Type} (f : A -> option B) (l : list A) :
  forall ys, mapM f l = Some ys <-> Forall2 (fun x y => f x = Some y) l ys.
Proof.
  induction l as [| x l IH]; intro ys; simpl.
  - split.
    + intro H. injection H as <-. constructor.
    + intro H. inversion H. reflexivity.
  - destruct (f x) as [y |] eqn:Ex.
    + destruct (mapM f l) as [zs |] eqn:El.
      * split.
        -- intro H. injection H as <-. constructor; [exact Ex |].
           apply IH. reflexivity.
        -- intro H. inversion H as [| ? y' ? zs' Hy Hzs]; subst.
           apply IH in Hzs. congruence.
      * split; [discriminate |].
        intro H. inversion H as [| ? y' ? zs' Hy Hzs]; subst.
        apply IH in Hzs. discriminate Hzs.
    + split; [discriminate |].
      intro H. inversion H as [| ? y' ? zs' Hy Hzs]; subst. congruence.
Qed.

Lemma extract_category_total (t : tree) (catfn : tree -> bool)
  (ignfn : option (tree -> bool)) :
  exists r, extract_category t catfn ignfn = Some r.
Proof. apply rec_fuel_enough. lia. Qed.

(** C9. [extract_category] terminates: the nested calls of [rec] number at
    most the depth of the tree plus one, so with that much fuel or any
    amount more [rec] returns, always the same result; every call it makes
    is on an item of strictly smaller depth; and an atom, the empty
    compound included, is answered without any further call. *)
Theorem extract_category_terminates (t : tree) (catfn : tree -> bool)
  (ignfn : option (tree -> bool)) (extra : nat) :
  (exists r, extract_category t catfn ignfn = Some r
             /\ rec catfn ignfn (S (depth t) + extra) t = Some r)
  /\ match t with
     | Compound items =>
         Forall (fun c => depth c < depth t)
           (no_sent_ops_of catfn ignfn t items)
     | Atom _ => True
     end
  /\ rec catfn ignfn (S extra) (Compound []) = Some (Compound [], []).
Proof.
  split; [| split].
  - destruct (extract_category_total t catfn ignfn) as [r Hr].
    exists r. split; [exact Hr |].
    rewrite <- Hr. unfold extract_category. apply rec_fuel_indep; lia.
  - destruct t as [a | items]; [exact I |].
    apply Forall_forall. intros c Hc.
    apply no_sent_ops_incl in Hc. apply depth_child. exact Hc.
  - reflexivity.
Qed.

(** ** Order of the matches *)

(** C4. At every compound node the matches are the directly matched
    items in their original order (none when the node is ignored),
    followed by the matches found in each kept item, in item order; the
    rewritten node holds the rewritten kept items. *)
Theorem extract_category_match_order (l : list tree)
  (catfn : tree -> bool) (ignfn : option (tree -> bool)) :
  let t := Compound l in
  let kept :=
    if ignored ignfn t then l
    else filter (fun x => negb (catfn x)) l in
  let matched := if ignored ignfn t then [] else filter catfn l in
  exists recursed,
    Forall2 (fun x r => extract_category x catfn ignfn = Some r)
      kept recursed
    /\ extract_category t catfn ignfn =
       Some (Compound (map fst recursed),
             matched ++ List.concat (map snd recursed)).
Proof.
  intros t kept matched.
  assert (Hk : kept = no_sent_ops_of catfn ignfn t l).
  { unfold kept, no_sent_ops_of. destruct (ignored ignfn t); reflexivity. }
  assert (Hm : matched = sent_ops_of catfn ignfn t l).
  { unfold matched, sent_ops_of. destruct (ignored ignfn t); reflexivity. }
  destruct (mapM_total (fun x => extract_category x catfn ignfn) kept)
    as [recursed Hrec].
  { intros x _. apply extract_category_total. }
  exists recursed. split.
  - apply mapM_Forall2. exact Hrec.
  - destruct l as [| c l].
    + (* the empty compound is answered as an atom *)
      assert (kept = []) as Ek
          by (unfold kept; destruct (ignored ignfn t); reflexivity).
      assert (matched = []) as Em
          by (unfold matched; destruct (ignored ignfn t); reflexivity).
      rewrite Ek in Hrec. injection Hrec as <-. rewrite Em. reflexivity.
    + subst t. rewrite extract_category_unfold, atom_spec.
      rewrite <- Hk, <- Hm, Hrec, append_concat. reflexivity.
Qed.

(** ** Matched items are excised whole *)

Lemma filter_negb_skip (p : tree -> bool) (pre post : list tree) (c : tree) :
  p c = true ->
  filter (fun x => negb (p x)) (pre ++ c :: post)
  = filter (fun x => negb (p x)) (pre ++ post).
Proof.
  intro H. rewrite !filter_app. simpl. rewrite H. reflexivity.
Qed.

(** C10. A matched item is not entered: a compound whose only item
    matches is answered by a single call of [rec], whatever lies inside
    the item; and in general an item [c] that satisfies the predicate
    contributes to the result exactly one entry of the matches, [c] itself
    and unmodified, at its place among the directly matched items, and
    nothing to the rewritten tree. *)
Theorem extract_category_excises_whole (pre post : list tree) (c : tree)
  (catfn : tree -> bool) :
  catfn c = true ->
  rec catfn None 1 (Compound [c]) = Some (Compound [], [c])
  /\ exists t' ms,
      extract_category (Compound (pre ++ post)) catfn None
      = Some (t', filter catfn pre ++ ms)
      /\ extract_category (Compound (pre ++ c :: post)) catfn None
         = Some (t', filter catfn pre ++ c :: ms).
Proof.
  intro Hc. split.
  - simpl. rewrite Hc. reflexivity.
  - destruct (mapM_total (fun x => extract_category x catfn None)
                (filter (fun x => negb (catfn x)) (pre ++ post)))
      as [recursed Hrec].
    { intros x _. apply extract_category_total. }
    exists (Compound (map fst recursed)),
      (filter catfn post ++ List.concat (map snd recursed)).
    split.
    + destruct (pre ++ post) as [| d l] eqn:E.
      * apply app_eq_nil in E. destruct E as [-> ->].
        simpl in Hrec. injection Hrec as <-. reflexivity.
      * rewrite extract_category_unfold, atom_spec.
        unfold no_sent_ops_of, sent_ops_of. simpl ignored. cbv iota.
        unfold split_by_cond, fst, snd. rewrite Hrec, append_concat.
        rewrite <- E, filter_app, <- app_assoc. reflexivity.
    + rewrite extract_category_unfold, atom_spec.
      destruct (pre ++ c :: post) as [| d l] eqn:E.
      { destruct pre; discriminate E. }
      unfold no_sent_ops_of, sent_ops_of. simpl ignored. cbv iota.
      unfold split_by_cond, fst, snd.
      rewrite <- E, filter_negb_skip by exact Hc.
      rewrite Hrec, append_concat, filter_app. simpl. rewrite Hc.
      rewrite <- app_assoc. reflexivity.
Qed.

Lemma extract_category_excises_whole_witness :
  matches_b_or_its_list (Compound [sym "b"]) = true
  /\ extract_category (Compound [sym "a"; Compound [sym "b"]; sym "c"])
       matches_b_or_its_list None
     = Some (Compound [sym "a"; sym "c"], [Compound [sym "b"]]).
Proof.
  split; [reflexivity |].
  destruct (extract_category_excises_whole [sym "a"] [sym "c"]
              (Compound [sym "b"]) matches_b_or_its_list eq_refl)
    as [_ [t' [ms [H1 H2]]]].
  simpl app in H1, H2. rewrite H2.
  vm_compute in H1. injection H1 as <- <-. reflexivity.
Defined.

(** ** The ignore predicate *)

(** C1. On the tree [[sent, [ignore, [a, b]], c]], with the ignore
    predicate true on the [[ignore, ...]] node and the match predicate
    true on [b], the code extracts [b] from inside the ignored node and
    rewrites that node: the ignore predicate only keeps the direct items
    of the node from being extracted, and [rec] is still applied to each
    of them. *)
Theorem extract_category_ignore_scenario :
  starts_with_ignore
    (Compound [sym "ignore"; Compound [sym "a"; sym "b"]]) = true
  /\ tree_eqb (sym "b") (sym "b") = true
  /\ extract_category ignore_scenario (tree_eqb (sym "b"))
       (Some starts_with_ignore)
     = Some (Compound [sym "sent";
                       Compound [sym "ignore"; Compound [sym "a"]];
                       sym "c"],
             [sym "b"]).
Proof. repeat split. Qed.

(** ** Removal *)

Lemma rec_remove_compound (v : tree) (l : list tree) :
  rec_remove v (Compound l) =
  new_lst <- remove_loop (rec_remove v) v l [] ;; Ok (Compound new_lst).
Proof. reflexivity. Qed.

(** The loop of [rec_remove] appends to the list built so far the items
    that [removed] keeps, as long as the recursive calls do so one level
    down. *)
Lemma remove_loop_removed (recur : tree -> res tree) (v : tree)
  (es : list tree) :
  Forall (fun e => forall k, e = Compound k ->
                   exists k', recur e = Ok (Compound k') /\ removed v k k')
    es ->
  forall new_lst,
  exists l', remove_loop recur v es new_lst = Ok (new_lst ++ l')
             /\ removed v es l'.
Proof.
  induction 1 as [| e es He _ IH]; intro new_lst; simpl.
  - exists []. rewrite app_nil_r. split; [reflexivity | constructor].
  - destruct (tree_eqb e v) eqn:E.
    + apply tree_eqb_eq in E. subst e.
      destruct (IH new_lst) as [l' [Hl' Hr]].
      exists l'. split; [exact Hl' | constructor; exact Hr].
    + apply tree_eqb_neq in E. destruct e as [a | k]; simpl.
      * destruct (IH (new_lst ++ [Atom a])) as [l' [Hl' Hr]].
        exists (Atom a :: l'). rewrite Hl', <- app_assoc.
        split; [reflexivity | constructor; assumption].
      * destruct (He k eq_refl) as [k' [Hk' Hrk]]. rewrite Hk'. simpl.
        destruct (IH (new_lst ++ [Compound k'])) as [l' [Hl' Hr]].
        exists (Compound k' :: l'). rewrite Hl', <- app_assoc.
        split; [reflexivity | constructor; assumption].
Qed.

Lemma rec_remove_removed (v t : tree) :
  forall l, t = Compound l ->
  exists l', rec_remove v t = Ok (Compound l') /\ removed v l l'.
Proof.
  induction t as [a | k IH] using tree_ind'; intros l Ht;
    [discriminate Ht |].
  injection Ht as <-. rewrite rec_remove_compound.
  destruct (remove_loop_removed (rec_remove v) v k IH []) as [l' [Hl' Hr]].
  rewrite Hl'. exists l'. split; [reflexivity | exact Hr].
Qed.

Lemma removed_all (v : tree) (n : nat) : removed v (repeat v n) [].
Proof. induction n; simpl; constructor; assumption. Qed.

Lemma removed_fun (v : tree) (l l1 : list tree) :
  removed v l l1 -> forall l2, removed v l l2 -> l1 = l2.
Proof.
  induction 1 as [| l l1 _ IH | a l l1 Ha _ IH | k k1 l l1 Hk _ IHk _ IH];
    intros l2 H2; inversion H2; subst; try congruence.
  - apply IH. assumption.
  - f_equal. apply IH. assumption.
  - f_equal; [f_equal; apply IHk; assumption | apply IH; assumption].
Qed.

Lemma removed_app (v : tree) (l1 l1' l2 l2' : list tree) :
  removed v l1 l1' -> removed v l2 l2' -> removed v (l1 ++ l2) (l1' ++ l2').
Proof.
  induction 1; intro H2; simpl; try constructor; auto.
Qed.

Lemma removed_total (v : tree) (l : list tree) : exists l', removed v l l'.
Proof.
  destruct (rec_remove_removed v (Compound l) l eq_refl) as [l' [_ H]].
  exists l'. exact H.
Qed.

Lemma compound_cons_neq (v : tree) (l : list tree) : Compound (v :: l) <> v.
Proof.
  intro H. pose proof (depth_child v (v :: l) (or_introl eq_refl)) as Hd.
  rewrite H in Hd. lia.
Qed.

(** C6. [rec_remove] on a compound always returns a compound, the input
    with the items equal to the target deleted at every level; the root is
    kept even when it equals the target; and a compound all of whose items
    are deleted is left in place as an empty compound, at the root as well
    as at a nested position. *)
Theorem rec_remove_keeps_root (v : tree) (l pre post : list tree) (n : nat) :
  (exists l', rec_remove v (Compound l) = Ok (Compound l')
              /\ removed v l l')
  /\ (exists k', rec_remove (Compound l) (Compound l) = Ok (Compound k')
                 /\ removed (Compound l) l k')
  /\ rec_remove v (Compound (repeat v n)) = Ok (Compound [])
  /\ (exists pre' post',
        rec_remove v (Compound (pre ++ Compound (repeat v (S n)) :: post))
        = Ok (Compound (pre' ++ Compound [] :: post'))
        /\ removed v pre pre' /\ removed v post post').
Proof.
  split; [| split; [| split]].
  - apply rec_remove_removed. reflexivity.
  - apply rec_remove_removed. reflexivity.
  - destruct (rec_remove_removed v (Compound (repeat v n)) _ eq_refl)
      as [l' [Hl' Hr]].
    rewrite Hl'. rewrite (removed_fun _ _ _ Hr _ (removed_all v n)).
    reflexivity.
  - destruct (removed_total v pre) as [pre' Hpre].
    destruct (removed_total v post) as [post' Hpost].
    exists pre', post'. split; [| split; assumption].
    destruct (rec_remove_removed v
                (Compound (pre ++ Compound (repeat v (S n)) :: post))
                _ eq_refl) as [l' [Hl' Hr]].
    rewrite Hl'. do 2 f_equal.
    apply (removed_fun _ _ _ Hr).
    apply removed_app; [exact Hpre |].
    constructor; [apply compound_cons_neq | apply (removed_all v (S n)) |
                   exact Hpost].
Qed.

(** ** Totality *)

Lemma replace_loop_ok (recur : tree -> res tree) (old new : tree)
  (es : list tree) :
  Forall (fun e => listp e = true -> exists r, recur e = Ok r) es ->
  forall new_lst, exists l', replace_loop recur old new es new_lst = Ok l'.
Proof.
  induction 1 as [| e es He _ IH]; intro new_lst; simpl.
  - exists new_lst. reflexivity.
  - destruct (tree_eqb e old); [apply IH |].
    destruct (listp e) eqn:El; [| apply IH].
    destruct (He eq_refl) as [r ->]. simpl. apply IH.
Qed.

Lemma remove_loop_ok (recur : tree -> res tree) (target : tree)
  (es : list tree) :
  Forall (fun e => listp e = true -> exists r, recur e = Ok r) es ->
  forall new_lst, exists l', remove_loop recur target es new_lst = Ok l'.
Proof.
  induction 1 as [| e es He _ IH]; intro new_lst; simpl.
  - exists new_lst. reflexivity.
  - destruct (tree_eqb e target); [apply IH |].
    destruct (listp e) eqn:El; [| apply IH].
    destruct (He eq_refl) as [r ->]. simpl. apply IH.
Qed.

Lemma no_call_ok (es : list tree) :
  Forall (fun e => listp e = true -> exists r, no_call e = Ok r) es.
Proof.
  apply Forall_forall. intros e _ _. exists e. reflexivity.
Qed.

Lemma rec_replace_unfold (old new lst : tree) :
  rec_replace old new lst =
  if tree_eqb lst old then Ok new
  else
    match lst with
    | Compound l =>
        new_lst <- replace_loop (rec_replace old new) old new l [] ;;
        Ok (Compound new_lst)
    | Atom _ =>
        es <- iter lst ;;
        new_lst <- replace_loop no_call old new es [] ;;
        Ok (Compound new_lst)
    end.
Proof. destruct lst; reflexivity. Qed.

Lemma rec_replace_compound_ok (old new t : tree) :
  listp t = true -> exists r, rec_replace old new t = Ok r.
Proof.
  induction t as [a | l IH] using tree_ind'; intro H; [discriminate H |].
  rewrite rec_replace_unfold.
  destruct (tree_eqb (Compound l) old); [eexists; reflexivity |].
  destruct (replace_loop_ok (rec_replace old new) old new l IH [])
    as [l' ->].
  eexists. reflexivity.
Qed.

Lemma rec_remove_compound_ok (target t : tree) :
  listp t = true -> exists r, rec_remove target t = Ok r.
Proof.
  destruct t as [a | l]; intro H; [discriminate H |].
  destruct (rec_remove_removed target (Compound l) l eq_refl) as [l' [E _]].
  eexists. exact E.
Qed.

(** C2, as the code has it.  [subst] and [substall] (total functions of
    the embedding, by structural recursion), [extract_category],
    [rec_find] and [rec_find_if] return a result on every tree; on an
    atom [subst] returns the replacement or the atom itself and
    [extract_category] returns the atom and no matches.
    [rec_replace] and [rec_remove] return a result on every compound and
    on every text atom (whose characters the loop iterates over);
    on a number or [None] their loop raises [TypeError], which
    [rec_replace] avoids only when the input equals the target. *)
Theorem core_operations_total (t a b : tree) (x : atomv)
  (replist : list (tree * tree))
  (catfn : tree -> bool) (ignfn : option (tree -> bool))
  (test : tree -> tree -> bool) :
  (exists r, subst a b t = r)
  /\ subst a b (Atom x) = (if tree_eqb (Atom x) b then a else Atom x)
  /\ (exists r, substall t replist = r)
  /\ (exists r, extract_category t catfn ignfn = Some r)
  /\ extract_category (Atom x) catfn ignfn = Some (Atom x, [])
  /\ (exists ms, rec_find t a test = Some ms)
  /\ (exists ms, rec_find_if t catfn = Some ms)
  /\ match t with
     | Compound _ | Atom (AStr _) =>
         (exists r, rec_replace a b t = Ok r)
         /\ (exists r, rec_remove a t = Ok r)
     | Atom _ =>
         rec_replace a b t
         = (if tree_eqb t a then Ok b else Raise TypeError)
         /\ rec_remove a t = Raise TypeError
     end.
Proof.
  split; [eexists; reflexivity |].
  split.
  { unfold subst. rewrite subst_rec_unfold, atom_spec.
    destruct (tree_eqb (Atom x) b); reflexivity. }
  split; [eexists; reflexivity |].
  split; [apply extract_category_total |].
  split; [apply extract_category_atom; apply atom_spec |].
  split.
  { unfold rec_find.
    destruct (extract_category_total t (fun y => test a y) None)
      as [[t' ms] ->].
    exists ms. reflexivity. }
  split.
  { unfold rec_find_if.
    destruct (extract_category_total t catfn None) as [[t' ms] ->].
    exists ms. reflexivity. }
  destruct t as [[s | z |] | l].
  - split.
    + rewrite rec_replace_unfold.
      destruct (tree_eqb (Atom (AStr s)) a); [eexists; reflexivity |].
      simpl iter. simpl bind.
      destruct (replace_loop_ok no_call a b
                  (map char_atom (list_ascii_of_string s))
                  (no_call_ok _) []) as [l' ->].
      eexists. reflexivity.
    + simpl.
      destruct (remove_loop_ok no_call a
                  (map char_atom (list_ascii_of_string s))
                  (no_call_ok _) []) as [l' ->].
      eexists. reflexivity.
  - split; [| reflexivity].
    rewrite rec_replace_unfold.
    destruct (tree_eqb (Atom (AInt z)) a); reflexivity.
  - split; [| reflexivity].
    rewrite rec_replace_unfold.
    destruct (tree_eqb (Atom ANone) a); reflexivity.
  - split.
    + apply rec_replace_compound_ok. reflexivity.
    + apply rec_remove_compound_ok. reflexivity.
Qed.

(** C2 as stated fails: on the number [5], an atom different from the
    target [x], neither [rec_remove] nor [rec_replace] returns a result. *)
Lemma rec_remove_atom_raises :
  Atom (AInt 5) <> sym "x"
  /\ ~ (exists r, rec_remove (sym "x") (Atom (AInt 5)) = Ok r)
  /\ ~ (exists r, rec_replace (sym "x") (sym "y") (Atom (AInt 5)) = Ok r).
Proof.
  split; [discriminate |].
  split; intros [r H]; discriminate H.
Qed.

(** ** Positions *)

Lemma nth_error_middle {A : Type} (pre suf : list A) (c : A) :
  nth_error (pre ++ c :: suf) (List.length pre) = Some c.
Proof.
  induction pre as [| x pre IH]; simpl; [reflexivity | exact IH].
Qed.

Lemma outermostb_cons (p : tree -> bool) (c : tree) (ns : list tree) :
  outermostb p (c :: ns) =
  if p c then match ns with [] => true | _ :: _ => false end
  else outermostb p ns.
Proof.
  simpl. destruct ns as [| n ns]; destruct (p c); reflexivity.
Qed.

(** Below the root every position has at least one node on its way. *)
Lemma items_paths_along (suf : list tree) :
  forall pre,
    Forall (fun pi => along (Compound (pre ++ suf)) pi <> [])
      (items_paths (map paths suf) (List.length pre)).
Proof.
  induction suf as [| c suf IH]; intro pre; simpl; [constructor |].
  apply Forall_app. split.
  - apply Forall_forall. intros pi Hpi.
    apply in_map_iff in Hpi. destruct Hpi as [pi0 [<- _]].
    simpl. rewrite nth_error_middle. discriminate.
  - specialize (IH (pre ++ [c])).
    rewrite <- app_assoc, length_app, Nat.add_comm in IH. exact IH.
Qed.

Lemma paths_head (t : tree) :
  exists tl, paths t = [] :: tl /\ Forall (fun pi => along t pi <> []) tl.
Proof.
  destruct t as [a | l]; simpl.
  - exists []. split; [reflexivity | constructor].
  - exists (items_paths (map paths l) 0). split; [reflexivity |].
    apply (items_paths_along l []).
Qed.

Lemma filter_none {A : Type} (f : A -> bool) (l : list A) :
  Forall (fun x => f x = false) l -> filter f l = [].
Proof.
  induction 1 as [| x l Hx _ IH]; simpl; [reflexivity |].
  rewrite Hx. exact IH.
Qed.

Section Blocks.
Variable p : tree -> bool.
Variable l : list tree.
Variable i : nat.
Variable c : tree.
Hypothesis Hi : nth_error l i = Some c.

(** The outermost matches among the positions of item [i] and below. *)
Lemma block_outermost :
  map (subtree_at (Compound l))
    (filter (fun pi => outermostb p (along (Compound l) pi))
       (map (List.cons i) (paths c)))
  = if p c then [Some c] else outermost_nodes p c.
Proof.
  rewrite filter_map_swap, map_map. simpl. rewrite Hi.
  destruct (p c) eqn:Hc.
  - destruct (paths_head c) as [tl [-> Htl]]. simpl. rewrite Hc.
    rewrite filter_none; [reflexivity |].
    apply Forall_forall. intros pi Hpi.
    rewrite Forall_forall in Htl. specialize (Htl pi Hpi).
    destruct (along c pi); [contradiction | reflexivity].
  - unfold outermost_nodes.
    rewrite (filter_ext (fun a => outermostb p (c :: along c a))
               (fun pi => outermostb p (along c pi))); [reflexivity |].
    intro pi. rewrite outermostb_cons, Hc. reflexivity.
Qed.

(** The kept positions among the positions of item [i] and below. *)
Lemma block_kept :
  map (subtree_at (Compound l))
    (filter (fun pi => keptb p (along (Compound l) pi))
       (map (List.cons i) (paths c)))
  = if p c then [] else kept_nodes p c.
Proof.
  rewrite filter_map_swap, map_map. simpl. rewrite Hi. simpl.
  destruct (p c) eqn:Hc; simpl.
  - rewrite filter_none; [reflexivity |].
    apply Forall_forall. reflexivity.
  - reflexivity.
Qed.
End Blocks.

(** [along] lists the nodes at the prefixes of the position, the empty
    prefix apart, shortest first. *)
Lemma along_prefixes (pi : path) :
  forall t n,
    subtree_at t pi = Some n ->
    map Some (along t pi)
    = map (fun k => subtree_at t (firstn (S k) pi))
        (seq 0 (List.length pi)).
Proof.
  induction pi as [| i pi IH]; intros t n H; [reflexivity |].
  destruct t as [a | l]; [discriminate H |].
  cbn [subtree_at along] in *.
  destruct (nth_error l i) as [c |] eqn:Hi; [| discriminate H].
  cbn [List.length seq map firstn subtree_at]. rewrite Hi.
  f_equal. rewrite (IH c n H), <- seq_shift, map_map.
  apply map_ext. intro k. reflexivity.
Qed.

(** ** The partition made by the extraction *)

Lemma partitioned_atom (p : tree -> bool) (t : tree) :
  paths t = [[]] -> nodes t = [t] -> atom t = true -> partitioned p t.
Proof.
  intros Hp Hn Ha. exists t, [].
  split; [apply extract_category_atom; exact Ha |].
  unfold outermost_nodes, kept_nodes. rewrite Hp, Hn. simpl.
  split; [constructor |].
  constructor; [| constructor].
  exists t, []. split; [reflexivity |].
  apply extract_category_atom. exact Ha.
Qed.

Lemma items_partition (p : tree -> bool) (l : list tree) :
  forall suf pre,
    l = pre ++ suf ->
    Forall (partitioned p) suf ->
    exists recursed,
      mapM (fun x => extract_category x p None)
        (filter (fun x => negb (p x)) suf) = Some recursed
      /\ Permutation
           (map Some (filter p suf ++ List.concat (map snd recursed)))
           (map (subtree_at (Compound l))
              (filter (fun pi => outermostb p (along (Compound l) pi))
                 (items_paths (map paths suf) (List.length pre))))
      /\ Forall2 (rewritten p)
           (map (subtree_at (Compound l))
              (filter (fun pi => keptb p (along (Compound l) pi))
                 (items_paths (map paths suf) (List.length pre))))
           (flat_map nodes (map fst recursed)).
Proof.
  induction suf as [| c suf IH]; intros pre Hl HF.
  - exists []. simpl. repeat split; constructor.
  - inversion HF as [| ? ? Hc HF']; subst.
    destruct (IH (pre ++ [c])) as [recursed [Hrec [Hperm Hall]]];
      [rewrite <- app_assoc; reflexivity | exact HF' |].
    rewrite length_app, Nat.add_comm in Hperm, Hall.
    simpl Nat.add in Hperm, Hall.
    pose proof (nth_error_middle pre suf c) as Hi.
    simpl items_paths. rewrite !filter_app, !map_app.
    rewrite (block_outermost p _ _ c Hi), (block_kept p _ _ c Hi).
    destruct (p c) eqn:Epc.
    + exists recursed. simpl. rewrite Epc. simpl.
      split; [exact Hrec |].
      split; [constructor; exact Hperm | exact Hall].
    + destruct Hc as [t' [ms [E [Pm F2]]]].
      exists ((t', ms) :: recursed). simpl. rewrite Epc. simpl.
      rewrite E, Hrec.
      split; [reflexivity |].
      split.
      * rewrite !map_app, Permutation_app_swap_app.
        apply Permutation_app; [exact Pm |].
        rewrite <- map_app. exact Hperm.
      * apply Forall2_app; [exact F2 | exact Hall].
Qed.

Lemma every_tree_partitioned (p : tree -> bool) (t : tree) :
  partitioned p t.
Proof.
  induction t as [a | l IH] using tree_ind'.
  - apply partitioned_atom; try reflexivity. apply atom_spec.
  - destruct l as [| c l].
    + apply partitioned_atom; reflexivity.
    + destruct (items_partition p (c :: l) (c :: l) [] eq_refl IH)
        as [recursed [Hrec [Hperm Hall]]].
      exists (Compound (map fst recursed)),
        (filter p (c :: l) ++ List.concat (map snd recursed)).
      split; [| split].
      * rewrite extract_category_unfold, atom_spec.
        unfold no_sent_ops_of, sent_ops_of, split_by_cond.
        simpl ignored. cbv iota. unfold fst at 1. unfold snd at 1.
        rewrite Hrec, append_concat. reflexivity.
      * exact Hperm.
      * unfold kept_nodes.
        change (paths (Compound (c :: l)))
          with ([] :: items_paths (map paths (c :: l)) 0).
        change (nodes (Compound (map fst recursed)))
          with (Compound (map fst recursed)
                  :: flat_map nodes (map fst recursed)).
        remember (c :: l) as items.
        simpl. constructor; [| exact Hall].
        exists (Compound items),
          (filter p items ++ List.concat (map snd recursed)).
        split; [reflexivity |].
        subst items.
        rewrite extract_category_unfold, atom_spec.
        unfold no_sent_ops_of, sent_ops_of, split_by_cond.
        simpl ignored. cbv iota. unfold fst at 1. unfold snd at 1.
        rewrite Hrec, append_concat. reflexivity.
Qed.

(** [paths] lists every position of the tree, each once. *)

Lemma In_items_paths (suf : list tree) :
  forall i pi,
    In pi (items_paths (map paths suf) i) <->
    exists k c pi0,
      pi = (i + k) :: pi0 /\ nth_error suf k = Some c /\ In pi0 (paths c).
Proof.
  induction suf as [| c suf IH]; intros i pi; simpl.
  - split; [intros [] |].
    intros [k [c [pi0 [_ [H _]]]]]. destruct k; discriminate H.
  - rewrite in_app_iff, in_map_iff, IH. split.
    + intros [[pi0 [<- Hin]] | [k [d [pi0 [-> [Hk Hin]]]]]].
      * exists 0, c, pi0. rewrite Nat.add_0_r. repeat split; assumption.
      * exists (S k), d, pi0. rewrite Nat.add_succ_r.
        repeat split; assumption.
    + intros [[| k] [d [pi0 [-> [Hk Hin]]]]]; simpl in Hk.
      * injection Hk as <-. left. exists pi0.
        rewrite Nat.add_0_r. split; [reflexivity | exact Hin].
      * right. exists k, d, pi0. rewrite Nat.add_succ_r.
        repeat split; assumption.
Qed.

Lemma paths_complete (t : tree) :
  forall pi, In pi (paths t) <-> subtree_at t pi <> None.
Proof.
  induction t as [a | l IH] using tree_ind'; intros [| i pi0]; simpl.
  - split; [discriminate | auto].
  - split; [intros [H | []]; discriminate H | intro H; congruence].
  - split; [discriminate | auto].
  - rewrite In_items_paths. rewrite Forall_forall in IH. split.
    + intros [H | [k [c [pi1 [E [Hk Hin]]]]]]; [discriminate H |].
      injection E as -> ->. rewrite Hk.
      apply IH; [apply (nth_error_In _ _ Hk) | exact Hin].
    + intro H. right. destruct (nth_error l i) as [c |] eqn:Hk;
        [| congruence].
      exists i, c, pi0. repeat split; [exact Hk |].
      apply IH; [apply (nth_error_In _ _ Hk) | exact H].
Qed.

Lemma NoDup_map_cons (i : nat) (q : list path) :
  NoDup q -> NoDup (map (List.cons i) q).
Proof.
  induction 1 as [| pi q Hpi _ IH]; simpl; constructor; [| exact IH].
  intro H. apply in_map_iff in H. destruct H as [pi' [E Hin]].
  injection E as ->. contradiction.
Qed.

Lemma NoDup_items_paths (suf : list tree) :
  Forall (fun c => NoDup (paths c)) suf ->
  forall i, NoDup (items_paths (map paths suf) i).
Proof.
  induction 1 as [| c suf Hc _ IH]; intro i; simpl; [constructor |].
  apply NoDup_app; [apply NoDup_map_cons; exact Hc | apply IH |].
  intros pi H1 H2. apply in_map_iff in H1. destruct H1 as [pi0 [<- _]].
  apply In_items_paths in H2. destruct H2 as [k [d [pi1 [E _]]]].
  injection E as E _. lia.
Qed.

Lemma paths_NoDup (t : tree) : NoDup (paths t).
Proof.
  induction t as [a | l IH] using tree_ind'; simpl.
  - constructor; [intros [] | constructor].
  - constructor; [| apply NoDup_items_paths; exact IH].
    intro H. apply In_items_paths in H.
    destruct H as [k [c [pi0 [E _]]]]. discriminate E.
Qed.

(** C3, as the code has it.  Without an ignore predicate, the matches
    are, up to their order, the nodes at the outermost matching positions
    of the tree, one entry for each such position: a node that satisfies
    the predicate is listed when it is not the root and lies inside no
    other listed node.  The nodes of the rewritten tree are, one for one
    and in order, the rewritten forms of the nodes at the kept positions:
    the root, and the nodes that neither satisfy the predicate nor lie
    inside a node below the root that does.  [paths] names every position
    of the tree once. *)
Theorem extract_category_partition (t : tree) (p : tree -> bool) :
  exists t' ms,
    extract_category t p None = Some (t', ms)
    /\ Permutation (map Some ms) (outermost_nodes p t)
    /\ Forall2 (rewritten p) (kept_nodes p t) (nodes t')
    /\ NoDup (paths t)
    /\ (forall pi, In pi (paths t) <-> subtree_at t pi <> None).
Proof.
  destruct (every_tree_partitioned p t) as [t' [ms [E [Hm Hk]]]].
  exists t', ms. repeat split; try assumption.
  - apply paths_NoDup.
  - apply paths_complete.
  - apply paths_complete.
Qed.

(** C3 as stated fails on [[[b, c]]] with a predicate true of everything
    but [c]: the only match is the item [[b, c]]; the root and [b] satisfy
    the predicate and are not entries of the matches, and [c], which does
    not satisfy it, is not a node of the rewritten tree [[]]. *)
Lemma partition_fails_on_nested_match :
  extract_category nested_match differs_from_c None
  = Some (Compound [], [Compound [sym "b"; sym "c"]])
  /\ ~ every_match_listed nested_match differs_from_c
  /\ ~ rest_is_retained nested_match differs_from_c.
Proof.
  split; [reflexivity |]. split; intro H.
  - specialize (H (Compound []) [Compound [sym "b"; sym "c"]] eq_refl
                  [0; 0] (sym "b") eq_refl eq_refl).
    destruct H as [H | []]. discriminate H.
  - destruct (H (Compound []) [Compound [sym "b"; sym "c"]] eq_refl
                [0; 1] (sym "c") eq_refl eq_refl)
      as [n' [[m [ms [Hm E]]] Hin]].
    injection Hm as <-. vm_compute in E. injection E as <-.
    destruct Hin as [Hin | []]. discriminate Hin.
Qed.

(** * Further properties of the utilities *)

(** ** Replacement and substitution agree on lists *)

Lemma replace_loop_subst (recur : tree -> res tree) (old new : tree)
  (es : list tree) :
  Forall (fun e => listp e = true ->
                   recur e = Ok (subst_rec new old e)) es ->
  forall new_lst,
    replace_loop recur old new es new_lst
    = Ok (new_lst ++ map (subst_rec new old) es).
Proof.
  induction 1 as [| e es He _ IH]; intro new_lst; simpl.
  - rewrite app_nil_r. reflexivity.
  - rewrite (subst_rec_unfold new old e).
    destruct (tree_eqb e old) eqn:E.
    + rewrite IH, <- app_assoc. reflexivity.
    + destruct (listp e) eqn:El.
      * rewrite (He eq_refl). simpl.
        rewrite IH, <- app_assoc. simpl.
        rewrite (subst_rec_unfold new old e), E. reflexivity.
      * destruct e as [a | k]; [| discriminate El].
        rewrite atom_spec, IH, <- app_assoc. reflexivity.
Qed.

Lemma rec_replace_subst_rec (old new t : tree) :
  listp t = true -> rec_replace old new t = Ok (subst_rec new old t).
Proof.
  induction t as [a | l IH] using tree_ind'; intro H; [discriminate H |].
  rewrite rec_replace_unfold, subst_rec_unfold.
  destruct (tree_eqb (Compound l) old); [reflexivity |].
  rewrite (replace_loop_subst (rec_replace old new) old new l IH []).
  simpl. destruct l; reflexivity.
Qed.

(** X1. On a list [rec_replace(old, new, lst)] and
    [subst(new, old, lst)] return the same tree. *)
Theorem rec_replace_agrees_with_subst (old new : tree) (l : list tree) :
  rec_replace old new (Compound l) = Ok (subst new old (Compound l)).
Proof. apply rec_replace_subst_rec. reflexivity. Qed.

(** ** What removal and substitution leave behind *)

Lemma removed_no_atom_left (v : tree) (l l' : list tree) :
  listp v = false -> removed v l l' -> ~ In v (flat_map nodes l').
Proof.
  intro Hv. induction 1 as [| l l' _ IH | a l l' Ha _ IH
                            | k k' l l' Hk _ IHk _ IH]; simpl.
  - intros [].
  - exact IH.
  - intros [E | H]; [congruence | exact (IH H)].
  - intros [E | H]; [subst v; discriminate Hv |].
    apply in_app_or in H. destruct H as [H | H]; [exact (IHk H) |].
    exact (IH H).
Qed.

(** X2. When the target is not a list, [rec_remove] of a list leaves no
    occurrence of it at any depth of the result. *)
Theorem rec_remove_atom_leaves_none (v : tree) (l : list tree) :
  listp v = false ->
  exists l', rec_remove v (Compound l) = Ok (Compound l')
             /\ ~ In v (nodes (Compound l')).
Proof.
  intro Hv.
  destruct (rec_remove_removed v (Compound l) l eq_refl) as [l' [E Hr]].
  exists l'. split; [exact E |].
  simpl. intros [H | H]; [subst v; discriminate Hv |].
  exact (removed_no_atom_left v l l' Hv Hr H).
Qed.

Lemma rec_remove_atom_leaves_none_witness :
  listp (sym "x") = false
  /\ exists l',
      rec_remove (sym "x")
        (Compound [sym "x"; Compound [sym "a"; sym "x"]; sym "b"])
      = Ok (Compound l')
      /\ ~ In (sym "x") (nodes (Compound l')).
Proof.
  split; [reflexivity |].
  apply (rec_remove_atom_leaves_none (sym "x")
           [sym "x"; Compound [sym "a"; sym "x"]; sym "b"]).
  reflexivity.
Defined.

Lemma removed_absent_tree (v t : tree) :
  forall l, t = Compound l -> ~ In v (flat_map nodes l) -> removed v l l.
Proof.
  induction t as [a | k IH] using tree_ind'; intros l Ht;
    [discriminate Ht |].
  injection Ht as <-.
  induction IH as [| c k Hc _ IHk]; intro H; [constructor |].
  assert (Hne : c <> v).
  { intro E. apply H. simpl. destruct c; left; exact E. }
  assert (Hk : removed v k k).
  { apply IHk. intro Hin. apply H. simpl. apply in_or_app. right.
    exact Hin. }
  destruct c as [a | k0].
  - constructor; assumption.
  - constructor; [exact Hne | | exact Hk].
    apply (Hc k0 eq_refl).
    intro Hin. apply H. simpl. right. apply in_or_app. left. exact Hin.
Qed.

(** X3. A list in which the target occurs nowhere below the root is
    returned unchanged by [rec_remove]. *)
Theorem rec_remove_absent_identity (v : tree) (l : list tree) :
  ~ In v (proper_nodes (Compound l)) ->
  rec_remove v (Compound l) = Ok (Compound l).
Proof.
  intro H.
  destruct (rec_remove_removed v (Compound l) l eq_refl) as [l' [E Hr]].
  rewrite E. do 2 f_equal.
  apply (removed_fun v l l' Hr l).
  apply (removed_absent_tree v (Compound l) l eq_refl). exact H.
Qed.

Lemma rec_remove_absent_identity_witness :
  ~ In (sym "x") (proper_nodes (Compound [sym "a"; Compound [sym "b"]]))
  /\ rec_remove (sym "x") (Compound [sym "a"; Compound [sym "b"]])
     = Ok (Compound [sym "a"; Compound [sym "b"]]).
Proof.
  assert (H : ~ In (sym "x")
                (proper_nodes (Compound [sym "a"; Compound [sym "b"]]))).
  { simpl. intros [E | [E | [E | []]]]; discriminate E. }
  split; [exact H |].
  apply (rec_remove_absent_identity (sym "x")
           [sym "a"; Compound [sym "b"]] H).
Defined.

(** X4. A tree in which the target occurs nowhere, the root included, is
    returned unchanged by [subst]. *)
Theorem subst_absent_identity (a b t : tree) :
  ~ In b (nodes t) -> subst a b t = t.
Proof.
  unfold subst.
  induction t as [x | l IH] using tree_ind'; intro H;
    rewrite subst_rec_unfold.
  - destruct (tree_eqb (Atom x) b) eqn:E.
    + apply tree_eqb_eq in E. exfalso. apply H. left. exact E.
    + rewrite atom_spec. reflexivity.
  - destruct (tree_eqb (Compound l) b) eqn:E.
    + apply tree_eqb_eq in E. exfalso. apply H. left. exact E.
    + destruct (atom (Compound l)); [reflexivity |]. f_equal.
      assert (Hl : ~ In b (flat_map nodes l))
        by (intro Hin; apply H; right; exact Hin).
      clear H E. induction IH as [| c k Hc _ IHk]; [reflexivity |].
      simpl. rewrite Hc, IHk; [reflexivity | |].
      * intro Hin. apply Hl. simpl. apply in_or_app. right. exact Hin.
      * intro Hin. apply Hl. simpl. apply in_or_app. left. exact Hin.
Qed.

Lemma subst_absent_identity_witness :
  ~ In (sym "x") (nodes (Compound [sym "a"; Compound [sym "b"]]))
  /\ subst (sym "y") (sym "x") (Compound [sym "a"; Compound [sym "b"]])
     = Compound [sym "a"; Compound [sym "b"]].
Proof.
  assert (H : ~ In (sym "x")
                (nodes (Compound [sym "a"; Compound [sym "b"]]))).
  { simpl. intros [E | [E | [E | [E | []]]]]; discriminate E. }
  split; [exact H |].
  apply (subst_absent_identity (sym "y") (sym "x") _ H).
Defined.

(** ** Flattening *)

Lemma flatten_compound (l : list tree) :
  flatten (Compound l) = flat_map flatten l.
Proof.
  simpl. rewrite append_concat. symmetry. apply flat_map_concat_map.
Qed.

Lemma flatten_not_list (t : tree) : listp t = false -> flatten t = [t].
Proof. destruct t; [reflexivity | discriminate]. Qed.

Lemma filter_flat_map {A B : Type} (f : B -> bool) (g : A -> list B)
  (l : list A) :
  filter f (flat_map g l) = flat_map (fun x => filter f (g x)) l.
Proof.
  induction l as [| x l IH]; simpl; [reflexivity |].
  rewrite filter_app, IH. reflexivity.
Qed.

Lemma flatten_filter_nodes (t : tree) :
  flatten t = filter (fun x => negb (listp x)) (nodes t).
Proof.
  induction t as [a | l IH] using tree_ind'; [reflexivity |].
  rewrite flatten_compound.
  change (nodes (Compound l)) with (Compound l :: flat_map nodes l).
  simpl filter. rewrite filter_flat_map.
  induction IH as [| c k Hc _ IHk]; simpl; [reflexivity |].
  rewrite Hc, IHk. reflexivity.
Qed.

(** X5. [flatten] returns the values of the tree that are not lists, in
    their left-to-right order; in particular the result holds no list,
    and an empty list inside the tree leaves no trace. *)
Theorem flatten_is_the_leaves (t : tree) :
  flatten t = filter (fun x => negb (listp x)) (nodes t)
  /\ Forall (fun x => listp x = false) (flatten t).
Proof.
  split; [apply flatten_filter_nodes |].
  rewrite flatten_filter_nodes.
  apply Forall_forall. intros x Hx. apply filter_In in Hx.
  destruct Hx as [_ Hx]. apply negb_true_iff. exact Hx.
Qed.

Lemma flatten_no_list (t : tree) :
  Forall (fun x => listp x = false) (flatten t).
Proof.
  rewrite flatten_filter_nodes.
  apply Forall_forall. intros x Hx. apply filter_In in Hx.
  destruct Hx as [_ Hx]. apply negb_true_iff. exact Hx.
Qed.

Lemma flat_map_flatten_leaves (l : list tree) :
  Forall (fun x => listp x = false) l -> flat_map flatten l = l.
Proof.
  induction 1 as [| x l Hx _ IH]; simpl; [reflexivity |].
  rewrite (flatten_not_list x Hx), IH. reflexivity.
Qed.

(** X6. Flattening is idempotent: the flattened list, taken as a tree,
    flattens to itself. *)
Theorem flatten_idempotent (t : tree) :
  flatten (Compound (flatten t)) = flatten t.
Proof.
  rewrite flatten_compound. apply flat_map_flatten_leaves.
  apply flatten_no_list.
Qed.

Lemma flat_map_flat_map {A B C : Type} (f : B -> list C) (g : A -> list B)
  (l : list A) :
  flat_map f (flat_map g l) = flat_map (fun x => flat_map f (g x)) l.
Proof.
  induction l as [| x l IH]; simpl; [reflexivity |].
  rewrite flat_map_app, IH. reflexivity.
Qed.

(** X7. Substituting for a target that is not a list acts on the leaves:
    the flattened result is the flattened input with every leaf equal to
    the target replaced by the leaves of the replacement. *)
Theorem flatten_subst (a b t : tree) :
  listp b = false ->
  flatten (subst a b t)
  = flat_map (fun x => if tree_eqb x b then flatten a else [x])
      (flatten t).
Proof.
  intro Hb. unfold subst.
  induction t as [x | l IH] using tree_ind'; rewrite subst_rec_unfold.
  - change (flatten (Atom x)) with [Atom x]. cbn [flat_map].
    rewrite app_nil_r.
    destruct (tree_eqb (Atom x) b); rewrite ?atom_spec; reflexivity.
  - assert (E : tree_eqb (Compound l) b = false).
    { apply tree_eqb_neq. intro E. subst b. discriminate Hb. }
    rewrite E, atom_spec. destruct l as [| c l]; [reflexivity |].
    rewrite !flatten_compound, flat_map_flat_map.
    remember (c :: l) as items. clear Heqitems c l E.
    induction IH as [| c k Hc _ IHk]; simpl; [reflexivity |].
    rewrite Hc, IHk. reflexivity.
Qed.

Lemma flatten_subst_witness :
  listp (sym "b") = false
  /\ flatten (subst (Compound [sym "x"; sym "y"]) (sym "b")
                (Compound [sym "a"; Compound [sym "b"; sym "c"]]))
     = [sym "a"; sym "x"; sym "y"; sym "c"].
Proof.
  split; [reflexivity |].
  rewrite (flatten_subst (Compound [sym "x"; sym "y"]) (sym "b")
             (Compound [sym "a"; Compound [sym "b"; sym "c"]]) eq_refl).
  reflexivity.
Defined.

Lemma removed_flatten (v : tree) (l l' : list tree) :
  listp v = false -> removed v l l' ->
  flat_map flatten l'
  = filter (fun x => negb (tree_eqb x v)) (flat_map flatten l).
Proof.
  intro Hv. induction 1 as [| l l' _ IH | a l l' Ha _ IH
                            | k k' l l' Hk _ IHk _ IH];
    cbn [flat_map].
  - reflexivity.
  - rewrite (flatten_not_list v Hv). cbn [app filter].
    rewrite tree_eqb_refl. exact IH.
  - change (flatten (Atom a)) with [Atom a]. cbn [app filter].
    apply tree_eqb_neq in Ha. rewrite Ha, IH. reflexivity.
  - rewrite !flatten_compound, filter_app, IHk, IH. reflexivity.
Qed.

(** X8. Removing a target that is not a list acts on the leaves: the
    flattened result is the flattened input without the leaves equal to
    the target. *)
Theorem flatten_rec_remove (v : tree) (l : list tree) :
  listp v = false ->
  exists r, rec_remove v (Compound l) = Ok r
            /\ flatten r
               = filter (fun x => negb (tree_eqb x v))
                   (flatten (Compound l)).
Proof.
  intro Hv.
  destruct (rec_remove_removed v (Compound l) l eq_refl) as [l' [E Hr]].
  exists (Compound l'). split; [exact E |].
  rewrite !flatten_compound. apply removed_flatten; assumption.
Qed.

Lemma flatten_rec_remove_witness :
  listp (sym "x") = false
  /\ exists r,
      rec_remove (sym "x")
        (Compound [sym "x"; Compound [sym "a"; sym "x"]; sym "b"]) = Ok r
      /\ flatten r = [sym "a"; sym "b"].
Proof.
  split; [reflexivity |].
  destruct (flatten_rec_remove (sym "x")
              [sym "x"; Compound [sym "a"; sym "x"]; sym "b"] eq_refl)
    as [r [E F]].
  exists r. split; [exact E |]. rewrite F. reflexivity.
Defined.

(** ** What the extraction returns *)

Lemma nodes_proper (t : tree) : nodes t = t :: proper_nodes t.
Proof. destruct t; reflexivity. Qed.

Lemma proper_nodes_depth (t : tree) :
  forall n, In n (proper_nodes t) -> depth n < depth t.
Proof.
  induction t as [a | l IH] using tree_ind'; intros n H; [destruct H |].
  cbn [proper_nodes] in H. apply in_flat_map in H.
  destruct H as [c [Hc Hn]].
  pose proof (depth_child c l Hc) as Hd.
  rewrite nodes_proper in Hn. destruct Hn as [<- | Hn]; [exact Hd |].
  rewrite Forall_forall in IH. specialize (IH c Hc n Hn). lia.
Qed.

(** Induction over the calls of [extract_category]: a property of the
    input, the rewritten tree and the matches that holds at atoms and
    passes from the kept items to the compound holds of every call. *)
Lemma extract_category_ind (catfn : tree -> bool)
  (ignfn : option (tree -> bool)) (Q : tree -> tree -> list tree -> Prop) :
  (forall t, atom t = true -> Q t t []) ->
  (forall c l recursed,
      Forall2 (fun x r => extract_category x catfn ignfn = Some r
                          /\ Q x (fst r) (snd r))
        (no_sent_ops_of catfn ignfn (Compound (c :: l)) (c :: l))
        recursed ->
      Q (Compound (c :: l)) (Compound (map fst recursed))
        (sent_ops_of catfn ignfn (Compound (c :: l)) (c :: l)
         ++ List.concat (map snd recursed))) ->
  forall t, exists t' ms,
      extract_category t catfn ignfn = Some (t', ms) /\ Q t t' ms.
Proof.
  intros Hatom Hcomp.
  induction t as [a | l IH] using tree_ind'.
  - exists (Atom a), []. split.
    + apply extract_category_atom. apply atom_spec.
    + apply Hatom. apply atom_spec.
  - destruct l as [| c l].
    + exists (Compound []), []. split; [reflexivity |].
      apply Hatom. reflexivity.
    + assert (Hkept :
        exists recursed,
          Forall2 (fun x r => extract_category x catfn ignfn = Some r
                              /\ Q x (fst r) (snd r))
            (no_sent_ops_of catfn ignfn (Compound (c :: l)) (c :: l))
            recursed).
      { assert (Hsub : forall x,
                  In x (no_sent_ops_of catfn ignfn (Compound (c :: l))
                          (c :: l)) -> In x (c :: l))
          by (intro x; apply no_sent_ops_incl).
        induction (no_sent_ops_of catfn ignfn (Compound (c :: l)) (c :: l))
          as [| x kept IHkept].
        - exists []. constructor.
        - destruct IHkept as [recursed Hrec].
          { intros y Hy. apply Hsub. right. exact Hy. }
          rewrite Forall_forall in IH.
          destruct (IH x (Hsub x (or_introl eq_refl)))
            as [t' [ms [E HQ]]].
          exists ((t', ms) :: recursed). constructor; [| exact Hrec].
          split; assumption. }
      destruct Hkept as [recursed Hrec].
      exists (Compound (map fst recursed)),
        (sent_ops_of catfn ignfn (Compound (c :: l)) (c :: l)
         ++ List.concat (map snd recursed)).
      split; [| apply Hcomp; exact Hrec].
      rewrite extract_category_unfold, atom_spec.
      assert (Hm : mapM (fun x => extract_category x catfn ignfn)
                     (no_sent_ops_of catfn ignfn (Compound (c :: l))
                        (c :: l)) = Some recursed).
      { apply mapM_Forall2.
        eapply Forall2_impl; [| exact Hrec]. intros x r [E _]. exact E. }
      rewrite Hm, append_concat. reflexivity.
Qed.

Lemma split_perm (catfn : tree -> bool) (ignfn : option (tree -> bool))
  (t : tree) (items : list tree) :
  Permutation items
    (no_sent_ops_of catfn ignfn t items ++ sent_ops_of catfn ignfn t items).
Proof.
  unfold no_sent_ops_of, sent_ops_of. destruct (ignored ignfn t); simpl.
  - rewrite app_nil_r. apply Permutation_refl.
  - induction items as [| x items IH]; simpl; [constructor |].
    destruct (catfn x); simpl.
    + apply Permutation_cons_app. exact IH.
    + constructor. exact IH.
Qed.

(** X9. The extraction loses and invents nothing, with or without an
    ignore predicate: the leaves of the input are, up to their order, the
    leaves of the rewritten tree together with the leaves of the
    matches. *)
Theorem extract_category_conserves_leaves (t : tree)
  (catfn : tree -> bool) (ignfn : option (tree -> bool)) :
  exists t' ms,
    extract_category t catfn ignfn = Some (t', ms)
    /\ Permutation (flatten t) (flatten t' ++ flat_map flatten ms).
Proof.
  apply (extract_category_ind catfn ignfn
           (fun t t' ms =>
              Permutation (flatten t) (flatten t' ++ flat_map flatten ms))).
  - intros u _. simpl. rewrite app_nil_r. apply Permutation_refl.
  - intros c l recursed Hrec.
    rewrite !flatten_compound, flat_map_app.
    rewrite (Permutation_flat_map flatten
               (split_perm catfn ignfn (Compound (c :: l)) (c :: l))).
    rewrite flat_map_app.
    set (matched := sent_ops_of catfn ignfn (Compound (c :: l)) (c :: l)).
    rewrite (Permutation_app_swap_app
               (flat_map flatten (map fst recursed))
               (flat_map flatten matched)).
    rewrite (Permutation_app_comm _ (flat_map flatten matched)).
    apply Permutation_app_head.
    induction Hrec as [| x r kept recursed [_ Hx] _ IH]; simpl;
      [constructor |].
    rewrite flat_map_app, Hx, IH, <- !app_assoc.
    apply Permutation_app_head. apply Permutation_app_swap_app.
Qed.

Lemma in_nodes_self (t : tree) : In t (nodes t).
Proof. rewrite nodes_proper. left. reflexivity. Qed.

Lemma in_proper_item (x n : tree) (items : list tree) :
  In x items -> In n (nodes x) -> In n (proper_nodes (Compound items)).
Proof.
  intros Hx Hn. cbn [proper_nodes]. apply in_flat_map.
  exists x. split; assumption.
Qed.

Lemma sent_ops_spec (catfn : tree -> bool) (ignfn : option (tree -> bool))
  (t : tree) (items : list tree) (m : tree) :
  In m (sent_ops_of catfn ignfn t items) ->
  catfn m = true /\ In m items.
Proof.
  unfold sent_ops_of. destruct (ignored ignfn t); simpl; [intros [] |].
  intro H. apply filter_In in H. destruct H as [H1 H2]. split; assumption.
Qed.

(** X10. With or without an ignore predicate, every match satisfies the
    predicate and is a node of the input below its root. *)
Theorem extract_category_matches_sound (t : tree)
  (catfn : tree -> bool) (ignfn : option (tree -> bool)) :
  exists t' ms,
    extract_category t catfn ignfn = Some (t', ms)
    /\ Forall (fun m => catfn m = true /\ In m (proper_nodes t)) ms.
Proof.
  apply (extract_category_ind catfn ignfn
           (fun t _ ms =>
              Forall (fun m => catfn m = true /\ In m (proper_nodes t)) ms)).
  - intros u _. constructor.
  - intros c l recursed Hrec. apply Forall_app. split.
    + apply Forall_forall. intros m Hm.
      apply sent_ops_spec in Hm. destruct Hm as [Hc Hin].
      split; [exact Hc |].
      apply (in_proper_item m m _ Hin (in_nodes_self m)).
    + assert (Hsub : forall x,
                In x (no_sent_ops_of catfn ignfn (Compound (c :: l))
                        (c :: l)) -> In x (c :: l))
        by (intro x; apply no_sent_ops_incl).
      induction Hrec as [| x r kept recursed [_ Hx] _ IH]; simpl;
        [constructor |].
      apply Forall_app. split.
      * eapply Forall_impl; [| exact Hx]. intros m [Hc Hin].
        split; [exact Hc |].
        apply (in_proper_item x m _ (Hsub x (or_introl eq_refl))).
        rewrite nodes_proper. right. exact Hin.
      * apply IH. intros y Hy. apply Hsub. right. exact Hy.
Qed.

Lemma filter_all {A : Type} (f : A -> bool) (l : list A) :
  Forall (fun x => f x = true) l -> filter f l = l.
Proof.
  induction 1 as [| x l Hx _ IH]; simpl; [reflexivity |].
  rewrite Hx, IH. reflexivity.
Qed.

Lemma filter_nil_Forall {A : Type} (f : A -> bool) (l : list A) :
  filter f l = [] -> Forall (fun x => f x = false) l.
Proof.
  induction l as [| x l IH]; simpl; [constructor |].
  destruct (f x) eqn:E; [discriminate |].
  intro H. constructor; [exact E | apply IH; exact H].
Qed.

Lemma split_none (catfn : tree -> bool) (ignfn : option (tree -> bool))
  (t : tree) (items : list tree) :
  Forall (fun x => catfn x = false) items ->
  no_sent_ops_of catfn ignfn t items = items
  /\ sent_ops_of catfn ignfn t items = [].
Proof.
  intro H. unfold no_sent_ops_of, sent_ops_of.
  destruct (ignored ignfn t); simpl; [split; reflexivity |].
  split.
  - apply filter_all. eapply Forall_impl; [| exact H].
    intros x Hx. simpl. rewrite Hx. reflexivity.
  - apply filter_none. exact H.
Qed.

Lemma items_fail (p : tree -> bool) (items : list tree) :
  Forall (fun n => p n = false) (flat_map nodes items) ->
  Forall (fun x => p x = false) items
  /\ Forall (fun x => Forall (fun n => p n = false) (proper_nodes x)) items.
Proof.
  induction items as [| x items IH]; simpl; intro H;
    [split; constructor |].
  apply Forall_app in H. destruct H as [Hx Hrest].
  rewrite nodes_proper in Hx. inversion Hx as [| ? ? Hx1 Hx2]; subst.
  destruct (IH Hrest) as [H1 H2]. split; constructor; assumption.
Qed.

Lemma extract_nothing_matches (t : tree) (catfn : tree -> bool)
  (ignfn : option (tree -> bool)) :
  exists t' ms,
    extract_category t catfn ignfn = Some (t', ms)
    /\ (Forall (fun n => catfn n = false) (proper_nodes t) ->
        t' = t /\ ms = []).
Proof.
  apply (extract_category_ind catfn ignfn
           (fun t t' ms =>
              Forall (fun n => catfn n = false) (proper_nodes t) ->
              t' = t /\ ms = [])).
  - intros u _ _. split; reflexivity.
  - intros c l recursed Hrec H. cbn [proper_nodes] in H.
    destruct (items_fail catfn (c :: l) H) as [Hitems Hbelow].
    destruct (split_none catfn ignfn (Compound (c :: l)) (c :: l) Hitems)
      as [Ek Em].
    rewrite Ek in Hrec. rewrite Em. clear Ek Em H Hitems.
    remember (c :: l) as items. clear Heqitems c l.
    assert (Hr : map fst recursed = items
                 /\ List.concat (map snd recursed) = []).
    { induction Hrec as [| x r items recursed [_ Hx] _ IH]; simpl;
        [split; reflexivity |].
      inversion Hbelow as [| ? ? Hb1 Hb2]; subst.
      destruct (Hx Hb1) as [-> ->]. destruct (IH Hb2) as [-> ->].
      split; reflexivity. }
    destruct Hr as [-> ->]. split; reflexivity.
Qed.

(** X11. When no node below the root satisfies the predicate, the
    extraction returns the input itself and no matches, with or without
    an ignore predicate. *)
Theorem extract_category_nothing_to_extract (t : tree)
  (catfn : tree -> bool) (ignfn : option (tree -> bool)) :
  Forall (fun n => catfn n = false) (proper_nodes t) ->
  extract_category t catfn ignfn = Some (t, []).
Proof.
  intro H.
  destruct (extract_nothing_matches t catfn ignfn) as [t' [ms [E HQ]]].
  destruct (HQ H) as [-> ->]. exact E.
Qed.

Lemma extract_category_nothing_to_extract_witness :
  Forall (fun n => tree_eqb (sym "z") n = false)
    (proper_nodes (Compound [sym "a"; Compound [sym "b"]]))
  /\ extract_category (Compound [sym "a"; Compound [sym "b"]])
       (tree_eqb (sym "z")) (Some starts_with_ignore)
     = Some (Compound [sym "a"; Compound [sym "b"]], []).
Proof.
  assert (H : Forall (fun n => tree_eqb (sym "z") n = false)
                (proper_nodes (Compound [sym "a"; Compound [sym "b"]]))).
  { repeat constructor. }
  split; [exact H |].
  apply (extract_category_nothing_to_extract _ _ _ H).
Defined.

Lemma extract_no_matches_inv (t : tree) (p : tree -> bool) :
  exists t' ms,
    extract_category t p None = Some (t', ms)
    /\ (ms = [] -> Forall (fun n => p n = false) (proper_nodes t)).
Proof.
  apply (extract_category_ind p None
           (fun t _ ms =>
              ms = [] -> Forall (fun n => p n = false) (proper_nodes t))).
  - intros u Hu _. rewrite atom_spec in Hu.
    destruct u as [a | [| c l]]; [constructor | constructor | discriminate].
  - intros c l recursed Hrec H.
    apply app_eq_nil in H. destruct H as [Hm Hn].
    unfold sent_ops_of in Hm. simpl in Hm.
    change (filter p (c :: l) = []) in Hm.
    apply filter_nil_Forall in Hm.
    destruct (split_none p None (Compound (c :: l)) (c :: l) Hm)
      as [Ek _].
    rewrite Ek in Hrec. clear Ek.
    cbn [proper_nodes]. remember (c :: l) as items. clear Heqitems c l.
    induction Hrec as [| x r items recursed [_ Hx] _ IH]; simpl;
      [constructor |].
    simpl in Hn. apply app_eq_nil in Hn. destruct Hn as [Hn1 Hn2].
    inversion Hm as [| ? ? Hm1 Hm2]; subst.
    apply Forall_app. split.
    + rewrite nodes_proper. constructor; [exact Hm1 | exact (Hx Hn1)].
    + apply IH; assumption.
Qed.

(** X12. [rec_find_if] returns the empty list exactly when no node below
    the root satisfies the predicate; the root itself is never tested. *)
Theorem rec_find_if_empty_iff (t : tree) (p : tree -> bool) :
  rec_find_if t p = Some []
  <-> Forall (fun n => p n = false) (proper_nodes t).
Proof.
  unfold rec_find_if. split.
  - destruct (extract_no_matches_inv t p) as [t' [ms [E HQ]]].
    rewrite E. intro H. injection H as ->. apply HQ. reflexivity.
  - intro H.
    destruct (extract_nothing_matches t p None) as [t' [ms [E HQ]]].
    destruct (HQ H) as [-> ->]. rewrite E. reflexivity.
Qed.

Lemma no_self_below (x : tree) : filter (tree_eqb x) (proper_nodes x) = [].
Proof.
  apply filter_none. apply Forall_forall. intros n Hn.
  apply tree_eqb_neq. intro E. subst n.
  pose proof (proper_nodes_depth x x Hn). lia.
Qed.

Lemma rec_find_count (x t : tree) :
  exists t' ms,
    extract_category t (fun y => tree_eqb x y) None = Some (t', ms)
    /\ Forall (eq x) ms
    /\ List.length ms
       = List.length (filter (tree_eqb x) (proper_nodes t)).
Proof.
  destruct (extract_category_ind (fun y => tree_eqb x y) None
              (fun t _ ms =>
                 Forall (eq x) ms
                 /\ List.length ms
                    = List.length (filter (tree_eqb x) (proper_nodes t))))
    with (t := t) as [t' [ms [E HQ]]].
  - intros u Hu. split; [constructor |].
    rewrite atom_spec in Hu.
    destruct u as [a | [| c l]]; [reflexivity | reflexivity | discriminate].
  - intros c l recursed Hrec.
    unfold sent_ops_of, no_sent_ops_of in *. simpl ignored in *.
    cbv iota in *. unfold split_by_cond, fst, snd in *.
    cbn [proper_nodes]. remember (c :: l) as items. clear Heqitems c l.
    split.
    + apply Forall_app. split.
      * apply Forall_forall. intros m Hm. apply filter_In in Hm.
        destruct Hm as [_ Hm]. apply tree_eqb_eq in Hm. exact Hm.
      * clear -Hrec.
        induction Hrec as [| c r kept recursed [_ [Hx _]] _ IH]; simpl;
          [constructor |].
        apply Forall_app. split; assumption.
    + rewrite length_app. revert recursed Hrec.
      induction items as [| c items IH]; intros recursed Hrec.
      * inversion Hrec. reflexivity.
      * cbn [flat_map filter]. rewrite filter_app, length_app, nodes_proper.
        cbn [filter] in Hrec |- *.
        destruct (tree_eqb x c) eqn:Ec.
        -- apply tree_eqb_eq in Ec. subst c.
           rewrite no_self_below. cbn [negb] in Hrec.
           specialize (IH recursed Hrec). simpl. lia.
        -- cbn [negb] in Hrec.
           inversion Hrec as [| ? r ? recursed' [_ [_ Hlen]] Hrest];
             subst.
           specialize (IH recursed' Hrest).
           simpl. rewrite length_app. lia.
  - exists t', ms. split; [exact E | exact HQ].
Qed.

(** X13. With the default equality test, [rec_find(lst, x)] returns one
    copy of [x] for every occurrence of [x] below the root of [lst], at
    any depth, and nothing else. *)
Theorem rec_find_counts_occurrences (x t : tree) :
  rec_find t x tree_eqb
  = Some (repeat x
            (List.length (filter (tree_eqb x) (proper_nodes t)))).
Proof.
  unfold rec_find.
  destruct (rec_find_count x t) as [t' [ms [E [Hall Hlen]]]].
  rewrite E, <- Hlen. f_equal. apply Forall_eq_repeat. exact Hall.
Qed.

(** ** Splitting, duplicates and empty values *)

(** X14. [split_by_cond] partitions the list: the two results hold between
    them exactly the items of the input, the first those that fail the
    condition and the second those that meet it. *)
Theorem split_by_cond_partition (lst : list tree) (cndfn : tree -> bool) :
  let filtered := fst (split_by_cond lst cndfn) in
  let matching := snd (split_by_cond lst cndfn) in
  Permutation lst (filtered ++ matching)
  /\ Forall (fun x => cndfn x = false) filtered
  /\ Forall (fun x => cndfn x = true) matching
  /\ List.length filtered + List.length matching = List.length lst.
Proof.
  simpl.
  assert (P : Permutation lst
                (filter (fun x => negb (cndfn x)) lst ++ filter cndfn lst)).
  { induction lst as [| x lst IH]; simpl; [constructor |].
    destruct (cndfn x); simpl.
    - apply Permutation_cons_app. exact IH.
    - constructor. exact IH. }
  split; [exact P |]. split; [| split].
  - apply Forall_forall. intros x Hx. apply filter_In in Hx.
    destruct Hx as [_ Hx]. apply negb_true_iff. exact Hx.
  - apply Forall_forall. intros x Hx. apply filter_In in Hx. apply Hx.
  - rewrite <- length_app. symmetry. apply Permutation_length. exact P.
Qed.

Lemma mem_In (x : tree) (l : list tree) : mem x l = true <-> In x l.
Proof.
  unfold mem. rewrite existsb_exists. split.
  - intros [y [Hy E]]. apply tree_eqb_eq in E. subst y. exact Hy.
  - intro H. exists x. split; [exact H | apply tree_eqb_refl].
Qed.

Lemma mem_app (x : tree) (l1 l2 : list tree) :
  mem x (l1 ++ l2) = mem x l1 || mem x l2.
Proof. apply existsb_app. Qed.

Lemma mem_single (x y : tree) : mem y [x] = tree_eqb x y.
Proof. unfold mem. simpl. apply orb_false_r. Qed.

Lemma tree_eqb_sym (x y : tree) : tree_eqb x y = tree_eqb y x.
Proof.
  destruct (tree_eqb x y) eqn:E; symmetry.
  - apply tree_eqb_eq in E. subst y. apply tree_eqb_refl.
  - apply tree_eqb_neq. apply tree_eqb_neq in E. congruence.
Qed.

Lemma filter_twice {A : Type} (f g : A -> bool) (l : list A) :
  filter f (filter g l) = filter (fun x => g x && f x) l.
Proof.
  induction l as [| x l IH]; simpl; [reflexivity |].
  destruct (g x); simpl; [destruct (f x) |]; rewrite IH; reflexivity.
Qed.

(** The loop, started on a list [acc] it has already built, appends the
    items of the deduplicated input that [acc] does not hold. *)
Lemma dedup_loop_eq (lst : list tree) :
  forall acc,
    dedup_loop lst acc acc
    = acc ++ filter (fun x => negb (mem x acc)) (remove_duplicates lst).
Proof.
  induction lst as [| l rest IH]; intro acc.
  - simpl. rewrite app_nil_r. reflexivity.
  - unfold remove_duplicates. cbn [dedup_loop mem existsb negb app].
    rewrite (IH [l]). cbn [app filter].
    destruct (mem l acc) eqn:E; cbn [negb].
    + rewrite IH, filter_twice. f_equal. apply filter_ext_in.
      intros x _. destruct (mem x acc) eqn:Ex; cbn [negb];
        [symmetry; apply andb_false_r |].
      rewrite andb_true_r, mem_single.
      destruct (tree_eqb l x) eqn:El; [| reflexivity].
      apply tree_eqb_eq in El. subst x. congruence.
    + rewrite IH, <- app_assoc, filter_twice. cbn [app]. do 2 f_equal.
      apply filter_ext. intro x. rewrite mem_app, negb_orb.
      apply andb_comm.
Qed.

Lemma remove_duplicates_cons (x : tree) (l : list tree) :
  remove_duplicates (x :: l)
  = x :: filter (fun y => negb (tree_eqb y x)) (remove_duplicates l).
Proof.
  unfold remove_duplicates at 1. cbn [dedup_loop mem existsb negb app].
  rewrite dedup_loop_eq. cbn [app]. f_equal. apply filter_ext.
  intro y. rewrite mem_single, tree_eqb_sym. reflexivity.
Qed.

(** X15. [remove_duplicates] with [order=True] keeps the first occurrence
    of every item: the result for [x] followed by [l] is [x] followed by
    the result for [l] without the items equal to [x]. *)
Theorem remove_duplicates_keeps_first (x : tree) (l : list tree) :
  remove_duplicates [] = []
  /\ remove_duplicates (x :: l)
     = x :: filter (fun y => negb (tree_eqb y x)) (remove_duplicates l).
Proof. split; [reflexivity | apply remove_duplicates_cons]. Qed.

Lemma remove_duplicates_In (l : list tree) :
  forall x, In x (remove_duplicates l) <-> In x l.
Proof.
  induction l as [| y l IH]; intro x; [reflexivity |].
  rewrite remove_duplicates_cons. simpl. rewrite filter_In, IH.
  split.
  - intros [H | [H _]]; [left | right]; assumption.
  - intros [H | H]; [left; exact H |].
    destruct (tree_eqb x y) eqn:E.
    + left. apply tree_eqb_eq in E. congruence.
    + right. split; [exact H | reflexivity].
Qed.

Lemma remove_duplicates_NoDup (l : list tree) :
  NoDup (remove_duplicates l).
Proof.
  induction l as [| y l IH]; [constructor |].
  rewrite remove_duplicates_cons. constructor.
  - intro H. apply filter_In in H. destruct H as [_ H].
    rewrite tree_eqb_refl in H. discriminate H.
  - apply NoDup_filter. exact IH.
Qed.

(** X16. The result of [remove_duplicates] with [order=True] holds no
    item twice and holds exactly the items of the input. *)
Theorem remove_duplicates_set (l : list tree) :
  NoDup (remove_duplicates l)
  /\ (forall x, In x (remove_duplicates l) <-> In x l).
Proof.
  split; [apply remove_duplicates_NoDup | apply remove_duplicates_In].
Qed.

Lemma remove_duplicates_fixed (l : list tree) :
  NoDup l -> remove_duplicates l = l.
Proof.
  induction 1 as [| x l Hx _ IH]; [reflexivity |].
  rewrite remove_duplicates_cons, IH. f_equal.
  apply filter_all. apply Forall_forall. intros y Hy.
  apply negb_true_iff. apply tree_eqb_neq. intro E. subst y.
  contradiction.
Qed.

(** X17. [remove_duplicates] with [order=True] is idempotent. *)
Theorem remove_duplicates_idempotent (l : list tree) :
  remove_duplicates (remove_duplicates l) = remove_duplicates l.
Proof. apply remove_duplicates_fixed. apply remove_duplicates_NoDup. Qed.


(** ** Keyword contents *)

Lemma get_keyword_contents_step (x y : tree) (rest keys : list tree) :
  get_keyword_contents (x :: y :: rest) keys
  = (if mem x keys && truthy y then [y] else [])
    ++ get_keyword_contents (y :: rest) keys.
Proof.
  unfold get_keyword_contents. cbn [tl app combine filter].
  destruct (mem x keys && truthy y); reflexivity.
Qed.

Lemma get_keyword_contents_single (x : tree) (keys : list tree) :
  get_keyword_contents [x] keys = [].
Proof.
  unfold get_keyword_contents. simpl. rewrite andb_false_r. reflexivity.
Qed.

(** X19. [get_keyword_contents] returns exactly the items that are not
    empty values and stand immediately after an item of [keys]; a keyword
    in the last place, or one followed by an empty value, yields
    nothing. *)
Theorem get_keyword_contents_spec (lst keys : list tree) (v : tree) :
  In v (get_keyword_contents lst keys)
  <-> exists pre k post,
        lst = pre ++ k :: v :: post
        /\ mem k keys = true /\ truthy v = true.
Proof.
  induction lst as [| x rest IH].
  - split; [intros [] |].
    intros [pre [k [post [E _]]]]. destruct pre; discriminate E.
  - destruct rest as [| y rest].
    + rewrite get_keyword_contents_single. split; [intros [] |].
      intros [pre [k [post [E _]]]].
      destruct pre as [| a [| b pre]]; discriminate E.
    + rewrite get_keyword_contents_step, in_app_iff, IH. split.
      * intros [H | [pre [k [post [E [Hk Hv]]]]]].
        -- destruct (mem x keys) eqn:Hk; [| destruct H].
           destruct (truthy y) eqn:Hy; [| destruct H].
           destruct H as [<- | []].
           exists [], x, rest. repeat split; assumption.
        -- exists (x :: pre), k, post. rewrite E.
           repeat split; assumption.
      * intros [[| a pre] [k [post [E [Hk Hv]]]]].
        -- injection E as <- <- <-. left. rewrite Hk, Hv. left.
           reflexivity.
        -- injection E as <- E. right. exists pre, k, post.
           repeat split; assumption.
Qed.

(** ** Tests on symbols *)

Lemma count_char_le (c : ascii) (s : string) :
  count_char c s <= String.length s.
Proof.
  induction s as [| d s IH]; simpl; [lia |].
  destruct (Ascii.eqb d c); lia.
Qed.

(** X20. In [escaped_symbol_p] the test on the length adds nothing: a
    string is an escaped symbol exactly when it holds two vertical bars,
    wherever they stand. *)
Theorem escaped_symbol_p_counts_bars (s : tree) :
  escaped_symbol_p s
  = match s with
    | Atom (AStr str) => count_char vertical_bar str =? 2
    | _ => false
    end.
Proof.
  destruct s as [[str | z |] | l]; try reflexivity.
  unfold escaped_symbol_p.
  destruct (count_char vertical_bar str =? 2) eqn:E;
    [| apply andb_false_r].
  apply Nat.eqb_eq in E. rewrite andb_true_r. apply Nat.leb_le.
  pose proof (count_char_le vertical_bar str). lia.
Qed.

Lemma get_last (m : string) :
  forall c d,
    String.get (String.length (String.append m (String c EmptyString)))
      (String d (String.append m (String c EmptyString)))
    = Some c.
Proof.
  induction m as [| e m IH]; intros c d; [reflexivity |].
  cbn [String.append String.length String.get]. apply IH.
Qed.

Lemma get_minus_one (m : string) (c d : ascii) :
  String.get
    (String.length (String d (String.append m (String c EmptyString))) - 1)
    (String d (String.append m (String c EmptyString)))
  = Some c.
Proof.
  cbn [String.length].
  replace (S (String.length (String.append m (String c EmptyString))) - 1)
    with (String.length (String.append m (String c EmptyString))) by lia.
  apply get_last.
Qed.

Lemma string_snoc (s : string) :
  s <> EmptyString ->
  exists m c, s = String.append m (String c EmptyString).
Proof.
  induction s as [| d s IH]; intro H; [contradiction |].
  destruct s as [| e s].
  - exists EmptyString, d. reflexivity.
  - destruct IH as [m [c E]]; [discriminate |].
    exists (String d m), c. simpl. rewrite <- E. reflexivity.
Qed.

(** X21. [isquote] holds of a string exactly when it is a double quote,
    any text, and a double quote; a lone double quote is not a quoted
    expression. *)
Theorem isquote_spec (str : string) :
  isquote (Atom (AStr str)) = true
  <-> exists m,
        str = String double_quote
                (String.append m (String double_quote EmptyString)).
Proof.
  unfold isquote. split.
  - intro H. apply andb_true_iff in H. destruct H as [H Hlast].
    apply andb_true_iff in H. destruct H as [Hlen Hfirst].
    destruct str as [| d s]; [discriminate Hlen |].
    simpl in Hfirst. apply Ascii.eqb_eq in Hfirst. subst d.
    destruct (string_snoc s) as [m [c E]].
    { intro E. subst s. discriminate Hlen. }
    subst s. exists m. do 2 f_equal.
    rewrite get_minus_one in Hlast.
    apply Ascii.eqb_eq in Hlast. subst c. reflexivity.
  - intros [m ->]. rewrite get_minus_one.
    cbn [String.get]. rewrite !Ascii.eqb_refl.
    destruct m; reflexivity.
Qed.

Lemma length_string_append (s1 s2 : string) :
  String.length (String.append s1 s2)
  = String.length s1 + String.length s2.
Proof.
  induction s1 as [| c s1 IH]; simpl; [reflexivity |].
  rewrite IH. reflexivity.
Qed.

Lemma string_times_length (s : string) (k : nat) :
  String.length (string_times s k) = k * String.length s.
Proof.
  induction k as [| k IH]; cbn [string_times]; [reflexivity |].
  rewrite length_string_append, IH. simpl. reflexivity.
Qed.

(** X22. [indent(n)] is made of [2 * (n - 1)] characters when [n] is at
    least one, and is empty for every smaller [n], zero and the negative
    numbers included. *)
Theorem indent_length (n : Z) :
  Z.of_nat (String.length (indent n)) = Z.max 0 (2 * (n - 1)).
Proof.
  unfold indent. rewrite string_times_length. simpl String.length. lia.
Qed.

(** ** Shape of the rewritten tree *)

Lemma max_depth_bound (ys : list nat) (b : nat) :
  Forall (fun y => y <= b) ys -> fold_right Nat.max 0 ys <= b.
Proof.
  induction 1 as [| y ys Hy _ IH]; simpl; lia.
Qed.

Lemma depth_compound (l : list tree) :
  depth (Compound l) = S (fold_right Nat.max 0 (map depth l)).
Proof. reflexivity. Qed.

(** X23. The rewritten tree is never deeper than the input, and it is a
    list exactly when the input is one. *)
Theorem extract_category_shape (t : tree) (catfn : tree -> bool)
  (ignfn : option (tree -> bool)) :
  exists t' ms,
    extract_category t catfn ignfn = Some (t', ms)
    /\ depth t' <= depth t /\ listp t' = listp t.
Proof.
  apply (extract_category_ind catfn ignfn
           (fun t t' _ => depth t' <= depth t /\ listp t' = listp t)).
  - intros u _. split; [lia | reflexivity].
  - intros c l recursed Hrec. split; [| reflexivity].
    assert (Hsub : forall x,
              In x (no_sent_ops_of catfn ignfn (Compound (c :: l))
                      (c :: l)) -> In x (c :: l))
      by (intro x; apply no_sent_ops_incl).
    remember (c :: l) as items.
    rewrite !depth_compound. apply le_n_S. apply max_depth_bound.
    remember (no_sent_ops_of catfn ignfn (Compound items) items) as kept.
    clear Heqkept Heqitems.
    induction Hrec as [| x r kept recursed [_ [Hx _]] _ IH]; simpl;
      [constructor |].
    constructor.
    + pose proof (depth_child x items (Hsub x (or_introl eq_refl))) as Hd.
      rewrite depth_compound in Hd. lia.
    + apply IH. intros y Hy. apply Hsub. right. exact Hy.
Qed.
